(** * PPO (code/ppo.py): advantage estimation and the clipped update loop

    A shallow embedding of [PPO.__init__], [PPO.take_action], [PPO.train] and
    [PPO.compute_advantage], with the Python and numpy operations they rely
    on ([range], slicing, indexing, dictionaries) written out.

    Numbers.  The program computes on floating-point arrays.  The embedding
    is parametric in the type [E] of one array entry and in its arithmetic
    ([Num E]); the algebraic facts a statement needs are named as hypotheses
    ([ring_theory]), and the concrete runs below use exact rationals at
    dyadic values, where floating-point arithmetic is exact as well.

    Exceptions.  A function that may raise returns a [result]; a raised
    exception ends the call, and the state the call had reached is not
    kept.

    Collaborators.  The networks, the optimisers, the torch functions and the
    random source are code outside this file: they are fields of the classes
    [Torch] and [Networks].  The statements hold for every instance; one
    small instance serves the concrete runs. *)

From Stdlib Require Import ZArith QArith Qcanon Ring Lia.
From stdpp Require Import base list gmap strings.

Set Default Proof Using "Type".
Local Open Scope Z_scope.
Local Open Scope list_scope.

(** ** Python: exceptions, [range], indexing, slicing, dictionaries *)

Module Py.

Inductive exn : Type :=
  | KeyError (key : string)
  | IndexError
  | ValueError
  | RuntimeError.

Inductive result (A : Type) : Type :=
  | Ok (a : A)
  | Raise (e : exn).
Arguments Ok {A} a.
Arguments Raise {A} e.

Definition bind {A B : Type} (m : result A) (k : A -> result B) : result B :=
  match m with
  | Ok a => k a
  | Raise e => Raise e
  end.

#[export] Instance result_ret : MRet result := @Ok.
#[export] Instance result_bind : MBind result := fun A B k m => bind m k.

(** A [for] loop whose body may raise: the state is threaded left to right
    and the first exception ends the loop. *)
Fixpoint for_each {A S : Type} (body : S -> A -> result S) (xs : list A) (s : S)
  : result S :=
  match xs with
  | [] => Ok s
  | x :: xs' => bind (body s x) (for_each body xs')
  end.

(** [len(range(start, stop, step))] for [step <> 0]. *)
Definition range_len (start stop step : Z) : nat :=
  if 0 <? step then
    if start <? stop then Z.to_nat ((stop - start - 1) / step + 1) else 0%nat
  else
    if stop <? start then Z.to_nat ((start - stop - 1) / (- step) + 1) else 0%nat.

(** [range(start, stop, step)]; a zero step is a [ValueError]. *)
Definition range (start stop step : Z) : result (list Z) :=
  if step =? 0 then Raise ValueError
  else Ok (map (fun k : nat => start + Z.of_nat k * step)
               (seq 0 (range_len start stop step))).

(** [range(n)] never raises. *)
Definition range1 (n : Z) : list Z :=
  map (fun k : nat => Z.of_nat k) (seq 0 (range_len 0 n 1)).

(** [a[i]] on a sequence: negative indices count from the end, an index out
    of range is an [IndexError]. *)
Definition index_of {A : Type} (a : list A) (i : Z) : result nat :=
  let n := Z.of_nat (length a) in
  if (0 <=? i) && (i <? n) then Ok (Z.to_nat i)
  else if (- n <=? i) && (i <? 0) then Ok (Z.to_nat (i + n))
  else Raise IndexError.

Definition getitem {A : Type} (a : list A) (i : Z) : result A :=
  bind (index_of a i) (fun k =>
    match a !! k with
    | Some x => Ok x
    | None => Raise IndexError
    end).

(** [a[i] = x]. *)
Definition setitem {A : Type} (a : list A) (i : Z) (x : A) : result (list A) :=
  bind (index_of a i) (fun k => Ok (<[k := x]> a)).

(** One bound of a slice [a[i:j]]: negative bounds count from the end and
    every bound is clipped to the sequence. *)
Definition slice_bound (n i : Z) : Z :=
  if i <? 0 then Z.max (i + n) 0 else Z.min i n.

(** [a[i:j]]: never raises. *)
Definition slice {A : Type} (a : list A) (i j : Z) : list A :=
  let n := Z.of_nat (length a) in
  let lo := slice_bound n i in
  let hi := slice_bound n j in
  take (Z.to_nat (hi - lo)) (drop (Z.to_nat lo) a).

(** [a[idx]] with an index array (numpy and torch): one entry per index. *)
Fixpoint take_idx {A : Type} (a : list A) (idx : list Z) : result (list A) :=
  match idx with
  | [] => Ok []
  | i :: idx' =>
      bind (getitem a i) (fun x =>
      bind (take_idx a idx') (fun xs => Ok (x :: xs)))
  end.

(** [d[key]] on a dictionary: a missing key is a [KeyError]. *)
Definition dict_get {V : Type} (d : gmap string V) (key : string) : result V :=
  match d !! key with
  | Some v => Ok v
  | None => Raise (KeyError key)
  end.

End Py.
Import Py.

(** The ceiling of [n / b], for [b > 0]. *)
Definition ceil_div (n b : Z) : Z := (n + b - 1) / b.

(** ** Array entries and their arithmetic *)

Class Num (E : Type) : Type := {
  zero : E;
  one : E;
  add : E -> E -> E;
  sub : E -> E -> E;
  mul : E -> E -> E;
  neg : E -> E;
  (** Python truth value of an entry: everything but zero is true. *)
  truthy : E -> bool;
}.

(** [np.zeros_like(a)]. *)
Definition zeros_like {E : Type} `{Num E} (a : list E) : list E :=
  map (fun _ => zero) a.

(** The buffer dictionary: array-valued entries under string keys.  An array
    is the list of its entries along the first axis (one per transition). *)
Abbreviation dict E := (gmap string (list E)).

(** ** The advantage estimator *)

Section Advantage.
Context {E : Type} `{Num E}.

(** The two attributes [compute_advantage] reads from [self]. *)
Variables gamma lamda : E.

(** The body of the loop of [compute_advantage] at index [tau_idx]; the
    state is the local [advantage] and the dictionary. *)
Definition advantage_body (done_arr td_delta_arr : list E)
    (st : E * dict E) (tau_idx : Z) : result (E * dict E) :=
  let '(advantage, buffer_dict) := st in
  d ← getitem done_arr tau_idx;
  let advantage := if truthy d then zero else advantage in
  x ← getitem td_delta_arr tau_idx;
  let advantage := add advantage (mul (mul gamma lamda) x) in
  advantages ← dict_get buffer_dict "advantages";
  advantages ← setitem advantages tau_idx advantage;
  Ok (advantage, <["advantages" := advantages]> buffer_dict).

(** [PPO.compute_advantage]: the dictionary it leaves behind. *)
Definition compute_advantage (buffer_dict : dict E) : result (dict E) :=
  done_arr ← dict_get buffer_dict "dones";
  td_delta_arr ← dict_get buffer_dict "td_delta";
  let buffer_dict := <["advantages" := zeros_like td_delta_arr]> buffer_dict in
  let advantage := zero in
  st ← for_each (advantage_body done_arr td_delta_arr)
                (rev (range1 (Z.of_nat (length td_delta_arr))))
                (advantage, buffer_dict);
  Ok st.2.

End Advantage.

(** ** The recursion of the estimator, as the specification words it

    [running = 0; for t from last down to 0: if done[t]: running = 0;
    running = running + gamma * lambda * td_delta[t]; advantage[t] = running],
    written by recursion on the two aligned sequences: the head of the result
    of the later indices is the running value that reaches index [t]. *)

Section Recursion.
Context {E : Type} `{Num E}.
Variables gamma lamda : E.

Fixpoint gae_spec (dones td_delta : list E) : list E :=
  match dones, td_delta with
  | d :: dones', x :: td_delta' =>
      let later := gae_spec dones' td_delta' in
      let running := if truthy d then zero else hd zero later in
      add running (mul (mul gamma lamda) x) :: later
  | _, _ => []
  end.

End Recursion.

(** ** The collaborators *)

(** The torch functions the program calls, entry by entry. *)
Class Torch (E : Type) : Type := {
  th_float : E -> E;                 (* [.float()] *)
  th_long : E -> E;                  (* [.long()] *)
  th_exp : E -> E;                   (* [th.exp] *)
  th_log : E -> E;                   (* [th.log] *)
  th_clamp : E -> E -> E -> E;       (* [th.clamp(x, lo, hi)] *)
  th_min : E -> E -> E;              (* [th.min(x, y)], entry by entry *)
  th_mean : list E -> E;             (* [th.mean] *)
  mse_loss : list E -> list E -> E;  (* [F.mse_loss] *)
  (** [th.gather(probs, 1, action)] on one row: the entry of the row of
      probabilities at the stored action, where the action is an index of
      the row. *)
  th_gather : list E -> E -> E;
  (** Whether the action is an index of the row: where it is not,
      [th.gather] raises a [RuntimeError]. *)
  th_gather_ok : list E -> E -> bool;
  (** The value [nan]. *)
  th_nan : E;
}.

(** The networks of [utils], the optimisers and the two random sources.
    A network value stands for the module with its current parameters; an
    optimiser step takes the loss as a function of the network it
    differentiates, and returns the updated network and optimiser. *)
Class Networks (E : Type) : Type := {
  Env : Type;
  Device : Type;
  PolicyNet : Type;
  ValueNet : Type;
  PolicyOpt : Type;
  ValueOpt : Type;
  Rng : Type;
  new_policy_net : Env -> Device -> Z -> PolicyNet;
  new_value_net : Env -> Device -> Z -> ValueNet;
  adam_policy : PolicyNet -> E -> PolicyOpt;
  adam_value : ValueNet -> E -> ValueOpt;
  (** [policy_net(observation)]: the row of action probabilities. *)
  policy_forward : PolicyNet -> E -> list E;
  (** [value_net(observation)]. *)
  value_forward : ValueNet -> E -> E;
  (** [zero_grad(); loss.backward(); step()] on the policy side. *)
  policy_step : (PolicyNet -> E) -> PolicyNet -> PolicyOpt -> PolicyNet * PolicyOpt;
  (** The same on the value side. *)
  value_step : (ValueNet -> E) -> ValueNet -> ValueOpt -> ValueNet * ValueOpt;
  (** [np.random.shuffle]. *)
  shuffle : Rng -> list Z -> list Z * Rng;
  (** [Categorical(probs).sample()]. *)
  sample : Rng -> list E -> E * Rng;
}.

(** [torch.distributions.Categorical]: its [mean] property is a tensor
    filled with [nan], whatever the probabilities. *)
Definition Categorical_mean {E : Type} `{Torch E} (probs : list E) : E := th_nan.

(** ** The agent *)

Section Agent.
Context {E : Type} `{Num E} `{Torch E} `{Networks E}.

Record PPO : Type := {
  env : Env;
  batch_size : Z;
  latent_dim : Z;
  gamma : E;
  lamda : E;
  epsilon : E;
  n_epoch : Z;
  device : Device;
  policy_net : PolicyNet;
  value_net : ValueNet;
  policy_net_optimizer : PolicyOpt;
  value_net_optimizer : ValueOpt;
}.


(** [PPO.take_action]: the returned [action.item()] and the random source. *)
Definition take_action (self : PPO) (g : Rng) (observation : E) (deterministic : bool)
    : E * Rng :=
  let observation := th_float observation in
  let probs := policy_forward (policy_net self) observation in
  if deterministic then (Categorical_mean probs, g)
  else sample g probs.

(** *** One minibatch *)

(** The rows of the buffer a minibatch selects. *)
Record Batch : Type := {
  sgd_obs_tensor : list E;
  sgd_next_obs_tensor : list E;
  sgd_action_tensor : list E;
  sgd_done_tensor : list E;
  sgd_reward_tensor : list E;
  sgd_advantage_tensor : list E;
  sgd_old_log_prob : list E;
}.

(** [th.log(th.gather(net(obs), 1, action))], row by row. *)
Definition log_prob (net : PolicyNet) (obs action : list E) : list E :=
  zip_with (fun o a => th_log (th_gather (policy_forward net o) a)) obs action.

Definition ratio_of (net : PolicyNet) (b : Batch) : list E :=
  zip_with (fun lp old => th_exp (sub lp old))
           (log_prob net (sgd_obs_tensor b) (sgd_action_tensor b))
           (sgd_old_log_prob b).

(** [policy_loss] as a function of the policy network: the stored
    [old_log_prob] and the advantages are constants of it. *)
Definition policy_loss (self : PPO) (b : Batch) (net : PolicyNet) : E :=
  let ratio := ratio_of net b in
  let surr0 := zip_with mul ratio (sgd_advantage_tensor b) in
  let surr1 :=
    zip_with mul
      (map (fun r => th_clamp r (sub one (epsilon self)) (add one (epsilon self))) ratio)
      (sgd_advantage_tensor b) in
  neg (th_mean (zip_with th_min surr0 surr1)).

Definition value_of (net : ValueNet) (b : Batch) : list E :=
  map (value_forward net) (sgd_obs_tensor b).

Definition next_value_of (net : ValueNet) (b : Batch) : list E :=
  zip_with (fun o d => mul (value_forward net o) (sub one d))
           (sgd_next_obs_tensor b) (sgd_done_tensor b).

Definition td_target_of (self : PPO) (net : ValueNet) (b : Batch) : list E :=
  zip_with (fun r nv => add r (mul (gamma self) nv))
           (sgd_reward_tensor b) (next_value_of net b).

(** [value_loss] as a function of the value network: [value] and
    [td_target] are both computed from it. *)
Definition value_loss (self : PPO) (b : Batch) (net : ValueNet) : E :=
  mse_loss (value_of net b) (td_target_of self net b).

(** The tensors [train] builds before the loops. *)
Record Tensors : Type := {
  obs_tensor : list E;
  next_obs_tensor : list E;
  action_tensor : list E;
  done_tensor : list E;
  reward_tensor : list E;
  advantage_tensor : list E;
  old_log_prob : list E;
}.

(** The two optimiser steps of a pass: each side is handed its own loss
    and changes its own network and optimiser. *)
Definition update (self : PPO) (b : Batch) : PPO :=
  let p := policy_step (policy_loss self b)
                       (policy_net self) (policy_net_optimizer self) in
  let v := value_step (value_loss self b)
                      (value_net self) (value_net_optimizer self) in
  {| env := env self;
     batch_size := batch_size self;
     latent_dim := latent_dim self;
     gamma := gamma self;
     lamda := lamda self;
     epsilon := epsilon self;
     n_epoch := n_epoch self;
     device := device self;
     policy_net := p.1;
     value_net := v.1;
     policy_net_optimizer := p.2;
     value_net_optimizer := v.2 |}.

(** What one pass through the body of the inner loop computed, for the
    statements about [train]: the agent it started from, its rows and the
    values of its local variables. *)
Record Step : Type := {
  step_idx : list Z;            (* [sgd_idx_arr] *)
  step_self : PPO;              (* the agent when the pass starts *)
  step_batch : Batch;           (* the [sgd_..] rows *)
  step_ratio : list E;          (* [ratio] *)
  step_value_out : list E;      (* [value] *)
  step_next_value : list E;     (* [next_value] *)
  step_td_target : list E;      (* [td_target] *)
  step_policy_loss : E;         (* [policy_loss] *)
  step_value_loss : E;          (* [value_loss] *)
}.

Definition pass (self : PPO) (sgd_idx_arr : list Z) (b : Batch) : Step :=
  {| step_idx := sgd_idx_arr;
     step_self := self;
     step_batch := b;
     step_ratio := ratio_of (policy_net self) b;
     step_value_out := value_of (value_net self) b;
     step_next_value := next_value_of (value_net self) b;
     step_td_target := td_target_of self (value_net self) b;
     step_policy_loss := policy_loss self b (policy_net self);
     step_value_loss := value_loss self b (value_net self) |}.

(** The body of the inner loop for the minibatch that starts at [sgd_idx];
    the state is the agent and the passes made so far. *)
Definition sgd_body (t : Tensors) (idx_arr : list Z)
    (st : PPO * list Step) (sgd_idx : Z) : result (PPO * list Step) :=
  let '(self, steps) := st in
  let sgd_idx_arr := slice idx_arr sgd_idx (sgd_idx + batch_size self) in
  o ← take_idx (obs_tensor t) sgd_idx_arr;
  no ← take_idx (next_obs_tensor t) sgd_idx_arr;
  a ← take_idx (action_tensor t) sgd_idx_arr;
  d ← take_idx (done_tensor t) sgd_idx_arr;
  r ← take_idx (reward_tensor t) sgd_idx_arr;
  adv ← take_idx (advantage_tensor t) sgd_idx_arr;
  olp ← take_idx (old_log_prob t) sgd_idx_arr;
  let b := {| sgd_obs_tensor := o; sgd_next_obs_tensor := no;
              sgd_action_tensor := a; sgd_done_tensor := d;
              sgd_reward_tensor := r; sgd_advantage_tensor := adv;
              sgd_old_log_prob := olp |} in
  Ok (update self b, steps ++ [pass self sgd_idx_arr b]).

(** The body of the outer loop: one epoch. *)
Definition epoch_body (t : Tensors)
    (st : PPO * Rng * list Step) (_ : Z) : result (PPO * Rng * list Step) :=
  let '(self, g, steps) := st in
  let idx_arr := range1 (Z.of_nat (length (obs_tensor t))) in
  let '(idx_arr, g) := shuffle g idx_arr in
  starts ← range 0 (Z.of_nat (length idx_arr)) (batch_size self);
  st ← for_each (sgd_body t idx_arr) starts (self, steps);
  Ok (st.1, g, st.2).

(** What [self.policy_net(obs_tensor)] and
    [th.gather(old_logit, 1, action_tensor)] raise before the loops.  A
    dictionary holds the arrays [np.array] makes of the lists of a buffer:
    without a transition the array of observations has the shape [(0,)],
    not [(0, d)], and the two calls end in a [RuntimeError]; with
    transitions the gather raises where a stored action is not an index of
    its row.  The rows of a policy network keep their width, so the gather
    inside the loops finds the indices this one found. *)
Definition gather_check (net : PolicyNet) (obs action : list E) : result unit :=
  match obs with
  | [] => Raise RuntimeError
  | _ =>
      if forallb (fun oa => th_gather_ok (policy_forward net oa.1) oa.2)
                 (zip obs action)
      then Ok tt
      else Raise RuntimeError
  end.

(** The first part of [train], up to the loops: the tensors and the
    dictionary with its two derived entries. *)
Definition prepare (self : PPO) (buffer_dict : dict E) : result (Tensors * dict E) :=
  observations ← dict_get buffer_dict "observations";
  let obs_tensor := map th_float observations in
  next_observations ← dict_get buffer_dict "next_observations";
  let next_obs_tensor := map th_float next_observations in
  actions ← dict_get buffer_dict "actions";
  let action_tensor := map th_long actions in
  dones ← dict_get buffer_dict "dones";
  let done_tensor := map th_long dones in
  rewards ← dict_get buffer_dict "rewards";
  let reward_tensor := map th_float rewards in
  _ ← gather_check (policy_net self) obs_tensor action_tensor;
  let old_log_prob := log_prob (policy_net self) obs_tensor action_tensor in
  let value := map (value_forward (value_net self)) obs_tensor in
  let next_value :=
    zip_with (fun o d => mul (value_forward (value_net self) o) (sub one d))
             next_obs_tensor done_tensor in
  let td_target :=
    zip_with (fun r nv => add r (mul (gamma self) nv)) reward_tensor next_value in
  let td_delta := zip_with sub td_target value in
  let buffer_dict := <["td_delta" := td_delta]> buffer_dict in
  buffer_dict ← compute_advantage (gamma self) (lamda self) buffer_dict;
  advantages ← dict_get buffer_dict "advantages";
  Ok ({| obs_tensor := obs_tensor;
         next_obs_tensor := next_obs_tensor;
         action_tensor := action_tensor;
         done_tensor := done_tensor;
         reward_tensor := reward_tensor;
         advantage_tensor := map th_float advantages;
         old_log_prob := old_log_prob |},
      buffer_dict).

(** [PPO.train]: the agent, the random source and the dictionary it leaves
    behind, with the passes of the inner loop in the order they were made. *)
Definition train (self : PPO) (g : Rng) (buffer_dict : dict E)
    : result (PPO * Rng * dict E * list Step) :=
  tb ← prepare self buffer_dict;
  st ← for_each (epoch_body tb.1) (range1 (n_epoch self)) (self, g, []);
  Ok (st.1.1, st.1.2, tb.2, st.2).

(** The passes of a trace follow one another: each starts from the agent
    the one before it left. *)
Fixpoint chained (self : PPO) (steps : list Step) : Prop :=
  match steps with
  | [] => True
  | st :: steps' =>
      step_self st = self /\
      chained (update (step_self st) (step_batch st)) steps'
  end.

(** The agent after the passes of a trace. *)
Definition after (self : PPO) (steps : list Step) : PPO :=
  foldl (fun _ st => update (step_self st) (step_batch st)) self steps.

(** The index arrays of the minibatches of one epoch, in order. *)
Definition minibatches (idx_arr : list Z) (batch_size : Z) : result (list (list Z)) :=
  starts ← range 0 (Z.of_nat (length idx_arr)) batch_size;
  Ok (map (fun sgd_idx => slice idx_arr sgd_idx (sgd_idx + batch_size)) starts).

End Agent.

Arguments Batch : clear implicits.
Arguments Tensors : clear implicits.

(** ** Vocabulary for the statements about [train] *)

Section TrainVocabulary.
Context {E : Type} `{Num E} `{Torch E} `{Networks E}.

(** Every tensor has one entry per transition. *)
Definition aligned (t : Tensors E) (n : nat) : Prop :=
  length (obs_tensor t) = n /\
  length (next_obs_tensor t) = n /\
  length (action_tensor t) = n /\
  length (done_tensor t) = n /\
  length (reward_tensor t) = n /\
  length (advantage_tensor t) = n /\
  length (old_log_prob t) = n.

(** The rows of [b] are the rows of the tensors at the indices [idx]. *)
Definition selects (t : Tensors E) (idx : list Z) (b : Batch E) : Prop :=
  take_idx (obs_tensor t) idx = Ok (sgd_obs_tensor b) /\
  take_idx (next_obs_tensor t) idx = Ok (sgd_next_obs_tensor b) /\
  take_idx (action_tensor t) idx = Ok (sgd_action_tensor b) /\
  take_idx (done_tensor t) idx = Ok (sgd_done_tensor b) /\
  take_idx (reward_tensor t) idx = Ok (sgd_reward_tensor b) /\
  take_idx (advantage_tensor t) idx = Ok (sgd_advantage_tensor b) /\
  take_idx (old_log_prob t) idx = Ok (sgd_old_log_prob b).

(** Two agents with the same configuration (their networks may differ). *)
Definition same_config (a b : PPO) : Prop :=
  batch_size a = batch_size b /\ gamma a = gamma b /\ lamda a = lamda b /\
  epsilon a = epsilon b /\ n_epoch a = n_epoch b.

(** A pass of the loop over the tensors [t], for an agent configured as
    [self]. *)
Definition pass_of (t : Tensors E) (self : PPO) (st : Step) : Prop :=
  selects t (step_idx st) (step_batch st) /\
  st = pass (step_self st) (step_idx st) (step_batch st) /\
  same_config (step_self st) self.

(** The [td_delta] that [train] stores, from the tensors it is computed
    from. *)
Definition td_delta_of (self : PPO) (obs next_obs dones rewards : list E) : list E :=
  zip_with sub
    (zip_with (fun r nv => add r (mul (gamma self) nv)) rewards
       (zip_with (fun o d => mul (value_forward (value_net self) o) (sub one d))
                 next_obs dones))
    (map (value_forward (value_net self)) obs).

(** The tensors and the dictionary [train] enters its loops with, from the
    five arrays of the buffer. *)
Definition tensors_of (self : PPO) (obs next_obs actions dones rewards : list E)
    : Tensors E :=
  let td_delta :=
    td_delta_of self (map th_float obs) (map th_float next_obs)
                (map th_long dones) (map th_float rewards) in
  {| obs_tensor := map th_float obs;
     next_obs_tensor := map th_float next_obs;
     action_tensor := map th_long actions;
     done_tensor := map th_long dones;
     reward_tensor := map th_float rewards;
     advantage_tensor :=
       map th_float (gae_spec (gamma self) (lamda self) dones td_delta);
     old_log_prob :=
       log_prob (policy_net self) (map th_float obs) (map th_long actions) |}.

Definition derived_of (self : PPO) (obs next_obs dones rewards : list E)
    (buffer_dict : dict E) : dict E :=
  let td_delta :=
    td_delta_of self (map th_float obs) (map th_float next_obs)
                (map th_long dones) (map th_float rewards) in
  <["advantages" := gae_spec (gamma self) (lamda self) dones td_delta]>
    (<["td_delta" := td_delta]> buffer_dict).

(** [np.random.shuffle] permutes. *)
Definition shuffle_permutes : Prop :=
  forall (g : Rng) (idx : list Z), (shuffle g idx).1 ≡ₚ idx.

End TrainVocabulary.
(** ** Concrete numbers *)

(** Exact rationals: a commutative ring ([Qcrt]), used for the runs of
    [compute_advantage].  At dyadic values of small size, as in the runs
    below, floating-point arithmetic gives the same results. *)
#[export] Instance Qc_Num : Num Qc := {|
  zero := Q2Qc 0;
  one := Q2Qc 1;
  add := Qcplus;
  sub := Qcminus;
  mul := Qcmult;
  neg := Qcopp;
  truthy := fun x => negb (Qeq_bool x 0);
|}.

(** Rationals extended by the two infinities and [nan], with the arithmetic
    of IEEE 754 on the special values and exact arithmetic on the finite
    ones.  A finite value is kept in lowest terms ([Qred]). *)
Module XQ.

Inductive t : Type :=
  | Fin (q : Q)
  | PInf
  | NInf
  | NaN.

Definition sgn (q : Q) : comparison := (Qnum q ?= 0)%Z.

Definition neg (x : t) : t :=
  match x with
  | Fin q => Fin (Qred (- q))
  | PInf => NInf
  | NInf => PInf
  | NaN => NaN
  end.

Definition add (x y : t) : t :=
  match x, y with
  | NaN, _ | _, NaN => NaN
  | PInf, NInf | NInf, PInf => NaN
  | PInf, _ | _, PInf => PInf
  | NInf, _ | _, NInf => NInf
  | Fin a, Fin b => Fin (Qred (a + b))
  end.

Definition sub (x y : t) : t := add x (neg y).

(** An infinity times a finite value of the given sign. *)
Definition scale_inf (positive : bool) (s : comparison) : t :=
  match s with
  | Eq => NaN
  | Gt => if positive then PInf else NInf
  | Lt => if positive then NInf else PInf
  end.

Definition mul (x y : t) : t :=
  match x, y with
  | NaN, _ | _, NaN => NaN
  | Fin a, Fin b => Fin (Qred (a * b))
  | PInf, Fin b => scale_inf true (sgn b)
  | NInf, Fin b => scale_inf false (sgn b)
  | Fin a, PInf => scale_inf true (sgn a)
  | Fin a, NInf => scale_inf false (sgn a)
  | PInf, PInf | NInf, NInf => PInf
  | PInf, NInf | NInf, PInf => NInf
  end.

Definition truthy (x : t) : bool :=
  match x with
  | Fin q => negb (Qeq_bool q 0)
  | _ => true
  end.

Definition is_finite (x : t) : bool :=
  match x with
  | Fin _ => true
  | _ => false
  end.

(** [x <= y] on values that are not [nan]. *)
Definition leb (x y : t) : bool :=
  match x, y with
  | NInf, _ | _, PInf => true
  | Fin a, Fin b => Qle_bool a b
  | _, _ => false
  end.

Definition min (x y : t) : t :=
  match x, y with
  | NaN, _ | _, NaN => NaN
  | _, _ => if leb x y then x else y
  end.

Definition max (x y : t) : t :=
  match x, y with
  | NaN, _ | _, NaN => NaN
  | _, _ => if leb x y then y else x
  end.

Definition clamp (x lo hi : t) : t := min (max x lo) hi.

(** [exp] and [log] at the arguments where the result is rational or
    special: [exp 0 = 1], [exp (-inf) = 0], [exp inf = inf], [log 1 = 0],
    [log 0 = -inf], [log inf = inf], and [nan] for [nan], for [log] of a
    negative number and of [-inf].  The remaining finite arguments have no
    result in this type: the table answers [nan] there, and no run below
    evaluates [exp] or [log] there. *)
Definition exp (x : t) : t :=
  match x with
  | Fin q => if Qeq_bool q 0 then Fin 1 else NaN
  | PInf => PInf
  | NInf => Fin 0
  | NaN => NaN
  end.

Definition log (x : t) : t :=
  match x with
  | Fin q => if Qeq_bool q 0 then NInf else if Qeq_bool q 1 then Fin 0 else NaN
  | PInf => PInf
  | NInf => NaN
  | NaN => NaN
  end.

Definition sum (xs : list t) : t := foldr add (Fin 0) xs.

(** The mean of no entries is [nan]. *)
Definition mean (xs : list t) : t :=
  match xs with
  | [] => NaN
  | _ => mul (sum xs) (Fin (Qred (/ inject_Z (Z.of_nat (length xs)))))
  end.

Definition mse (xs ys : list t) : t :=
  mean (zip_with (fun x y => mul (sub x y) (sub x y)) xs ys).

(** Truncation of a finite value to an integer. *)
Definition long (x : t) : t :=
  match x with
  | Fin q => Fin (inject_Z (Z.quot (Qnum q) (Zpos (Qden q))))
  | _ => x
  end.

(** The entry of a row at an integer-valued index. *)
Definition gather (row : list t) (a : t) : t :=
  match a with
  | Fin q =>
      if Qle_bool 0 q
      then default NaN (row !! Z.to_nat (Z.quot (Qnum q) (Zpos (Qden q))))
      else NaN
  | _ => NaN
  end.

(** Whether an integer-valued index is in the row. *)
Definition gather_ok (row : list t) (a : t) : bool :=
  match a with
  | Fin q =>
      Qle_bool 0 q
      && (Z.to_nat (Z.quot (Qnum q) (Zpos (Qden q))) <? length row)%nat
  | _ => false
  end.

End XQ.

#[export] Instance XQ_Num : Num XQ.t := {|
  zero := XQ.Fin 0;
  one := XQ.Fin 1;
  add := XQ.add;
  sub := XQ.sub;
  mul := XQ.mul;
  neg := XQ.neg;
  truthy := XQ.truthy;
|}.

#[export] Instance XQ_Torch : Torch XQ.t := {|
  th_float := fun x => x;
  th_long := XQ.long;
  th_exp := XQ.exp;
  th_log := XQ.log;
  th_clamp := XQ.clamp;
  th_min := XQ.min;
  th_mean := XQ.mean;
  mse_loss := XQ.mse;
  th_gather := XQ.gather;
  th_gather_ok := XQ.gather_ok;
  th_nan := XQ.NaN;
|}.

(** A small agent over these numbers.  The policy is one row of action
    probabilities used for every observation, and a policy step reverses the
    row when the loss is not 0, so that probabilities stay where [log] is
    tabulated; the value of an observation [o] is [w * o] for the single
    weight [w], and a value step moves [w] by the learning rate times the
    loss; [shuffle] reverses and [sample] draws action 0. *)
#[export] Instance Small : Networks XQ.t := {|
  Env := unit;
  Device := unit;
  PolicyNet := list XQ.t;
  ValueNet := XQ.t;
  PolicyOpt := XQ.t;
  ValueOpt := XQ.t;
  Rng := nat;
  new_policy_net := fun _ _ _ => [XQ.Fin 1; XQ.Fin 0];
  new_value_net := fun _ _ _ => XQ.Fin 0;
  adam_policy := fun _ lr => lr;
  adam_value := fun _ lr => lr;
  policy_forward := fun net _ => net;
  value_forward := fun w o => XQ.mul w o;
  policy_step := fun loss net lr =>
    (if XQ.truthy (loss net) then rev net else net, lr);
  value_step := fun loss w lr => (XQ.sub w (XQ.mul lr (loss w)), lr);
  shuffle := fun g idx => (rev idx, S g);
  sample := fun g _ => (XQ.Fin 0, S g);
|}.

(** An agent whose policy puts all probability on action 0. *)
Definition small_agent (batch_size n_epoch : Z) : PPO := {|
  env := tt;
  batch_size := batch_size;
  latent_dim := 4;
  gamma := XQ.Fin (1 # 2);
  lamda := XQ.Fin (1 # 2);
  epsilon := XQ.Fin (1 # 4);
  n_epoch := n_epoch;
  device := tt;
  policy_net := [XQ.Fin 1; XQ.Fin 0];
  value_net := XQ.Fin 1;
  policy_net_optimizer := XQ.Fin (1 # 2);
  value_net_optimizer := XQ.Fin (1 # 2);
|}.

(** A buffer from the mapping of its five required keys. *)
Definition buffer_of {E : Type} (observations actions next_observations rewards dones : list E)
    : dict E :=
  <["observations" := observations]>
  (<["actions" := actions]>
  (<["next_observations" := next_observations]>
  (<["rewards" := rewards]>
  (<["dones" := dones]> ∅)))).

(** The exact rationals obey the ring laws. *)
Definition Qc_ring :
  ring_theory (@zero Qc Qc_Num) (@one Qc Qc_Num) (@add Qc Qc_Num) (@mul Qc Qc_Num)
              (@sub Qc Qc_Num) (@neg Qc Qc_Num) (@eq Qc) := Qcrt.

(** The discount [gamma = lamda = 1/2] and an episode of three steps with
    [done = [False, False, True]] and [td_delta = [1, 1, 1]]. *)
Definition half : Qc := Q2Qc (1 # 2).

Definition episode3 : dict Qc :=
  <["dones" := [Q2Qc 0; Q2Qc 0; Q2Qc 1]]>
  (<["td_delta" := [Q2Qc 1; Q2Qc 1; Q2Qc 1]]> ∅).

(** Four steps in two episodes of two, [done = [False, True, False, True]],
    and the two episodes on their own. *)
Definition episodes22 : dict Qc :=
  <["dones" := [Q2Qc 0; Q2Qc 1; Q2Qc 0; Q2Qc 1]]>
  (<["td_delta" := [Q2Qc 1; Q2Qc 2; Q2Qc 3; Q2Qc 4]]> ∅).

Definition episode_a : dict Qc :=
  <["dones" := [Q2Qc 0; Q2Qc 1]]> (<["td_delta" := [Q2Qc 1; Q2Qc 2]]> ∅).

Definition episode_b : dict Qc :=
  <["dones" := [Q2Qc 0; Q2Qc 1]]> (<["td_delta" := [Q2Qc 3; Q2Qc 4]]> ∅).

(** Two transitions, the second terminal, with stored action 0. *)
Definition two_steps : dict XQ.t :=
  buffer_of [XQ.Fin 1; XQ.Fin 1] [XQ.Fin 0; XQ.Fin 0] [XQ.Fin 1; XQ.Fin 1]
            [XQ.Fin 1; XQ.Fin 1] [XQ.Fin 0; XQ.Fin 1].

(** One terminal transition whose stored action is action 1, to which the
    policy of [small_agent] gives probability 0. *)
Definition zero_probability_step : dict XQ.t :=
  buffer_of [XQ.Fin 1] [XQ.Fin 1] [XQ.Fin 1] [XQ.Fin 1] [XQ.Fin 1].

(** ** Facts about the Python layer *)

Section PyFacts.

Lemma range1_of_nat (n : nat) :
  range1 (Z.of_nat n) = map Z.of_nat (seq 0 n).
Proof.
  unfold range1, range_len. simpl (0 <? 1).  cbv iota.
  destruct (0 <? Z.of_nat n) eqn:Hn.
  - replace (Z.to_nat ((Z.of_nat n - 0 - 1) / 1 + 1)) with n; [done|].
    rewrite Z.div_1_r. lia.
  - apply Z.ltb_ge in Hn. by replace n with 0%nat by lia.
Qed.

Lemma getitem_of_nat {A : Type} (a : list A) (k : nat) (x : A) :
  a !! k = Some x -> getitem a (Z.of_nat k) = Ok x.
Proof.
  intros Hk. pose proof (lookup_lt_Some _ _ _ Hk) as Hlt.
  unfold getitem, index_of.
  replace (0 <=? Z.of_nat k) with true by (symmetry; apply Z.leb_le; lia).
  replace (Z.of_nat k <? Z.of_nat (length a)) with true
    by (symmetry; apply Z.ltb_lt; lia).
  simpl. by rewrite Nat2Z.id, Hk.
Qed.

Lemma getitem_of_nat_ge {A : Type} (a : list A) (k : nat) :
  (length a <= k)%nat -> getitem a (Z.of_nat k) = Raise IndexError.
Proof.
  intros Hk. unfold getitem, index_of.
  replace (Z.of_nat k <? Z.of_nat (length a)) with false
    by (symmetry; apply Z.ltb_ge; lia).
  replace (Z.of_nat k <? 0) with false by (symmetry; apply Z.ltb_ge; lia).
  by rewrite !andb_false_r.
Qed.

Lemma setitem_of_nat {A : Type} (a : list A) (k : nat) (x : A) :
  (k < length a)%nat -> setitem a (Z.of_nat k) x = Ok (<[k := x]> a).
Proof.
  intros Hlt. unfold setitem, index_of.
  replace (0 <=? Z.of_nat k) with true by (symmetry; apply Z.leb_le; lia).
  replace (Z.of_nat k <? Z.of_nat (length a)) with true
    by (symmetry; apply Z.ltb_lt; lia).
  simpl. by rewrite Nat2Z.id.
Qed.

Lemma ceil_div_spec (n b : Z) :
  0 <= n -> 0 < b ->
  0 <= ceil_div n b /\ (ceil_div n b - 1) * b < n <= ceil_div n b * b.
Proof.
  intros Hn Hb. unfold ceil_div.
  pose proof (Z.div_mod (n + b - 1) b ltac:(lia)) as Hdm.
  pose proof (Z.mod_pos_bound (n + b - 1) b Hb) as Hmod.
  assert (0 <= (n + b - 1) / b) by (apply Z.div_pos; lia).
  nia.
Qed.

Lemma range_pos (n : nat) (b : Z) :
  0 < b ->
  range 0 (Z.of_nat n) b
  = Ok (map (fun k : nat => Z.of_nat k * b)
            (seq 0 (Z.to_nat (ceil_div (Z.of_nat n) b)))).
Proof.
  intros Hb. unfold range, range_len, ceil_div.
  replace (b =? 0) with false by (symmetry; apply Z.eqb_neq; lia).
  replace (0 <? b) with true by (symmetry; apply Z.ltb_lt; lia).
  f_equal. destruct (0 <? Z.of_nat n) eqn:Hn.
  - apply Z.ltb_lt in Hn.
    replace (Z.of_nat n + b - 1) with (Z.of_nat n - 0 - 1 + 1 * b) by lia.
    by rewrite Z.div_add by lia.
  - apply Z.ltb_ge in Hn. replace (Z.of_nat n) with 0 by lia.
    by rewrite Z.div_small by lia.
Qed.

Lemma range_neg (n : nat) (b : Z) :
  b < 0 -> range 0 (Z.of_nat n) b = Ok [].
Proof.
  intros Hb. unfold range, range_len.
  replace (b =? 0) with false by (symmetry; apply Z.eqb_neq; lia).
  replace (0 <? b) with false by (symmetry; apply Z.ltb_ge; lia).
  by replace (Z.of_nat n <? 0) with false by (symmetry; apply Z.ltb_ge; lia).
Qed.

(** A slice with bounds [0 <= i <= j] is [j - i] entries from [i] on. *)
Lemma slice_take_drop {A : Type} (a : list A) (i j : nat) :
  (i <= j)%nat ->
  slice a (Z.of_nat i) (Z.of_nat j) = take (j - i) (drop i a).
Proof.
  intros Hij. unfold slice, slice_bound.
  replace (Z.of_nat i <? 0) with false by (symmetry; apply Z.ltb_ge; lia).
  replace (Z.of_nat j <? 0) with false by (symmetry; apply Z.ltb_ge; lia).
  destruct (decide (i <= length a)%nat) as [Hi|Hi].
  - rewrite (Z.min_l (Z.of_nat i)) by lia. rewrite Nat2Z.id.
    destruct (decide (j <= length a)%nat) as [Hj|Hj].
    + rewrite Z.min_l by lia. f_equal. lia.
    + rewrite Z.min_r by lia.
      rewrite !take_ge; [done|rewrite length_drop; lia..].
  - rewrite !Z.min_r by lia. rewrite Z.sub_diag, Nat2Z.id.
    rewrite (drop_ge a i) by lia. rewrite drop_all. by rewrite !take_nil.
Qed.

(** The slices of width [b] at [0, b, 2b, ..] put end to end. *)
Lemma concat_chunks {A : Type} (a : list A) (b c : nat) :
  concat (map (fun k : nat => take b (drop (k * b) a)) (seq 0 c)) = take (c * b) a.
Proof.
  induction c as [|c IH]; [done|].
  rewrite seq_S, map_app, concat_app, IH. simpl.
  rewrite app_nil_r, take_take_drop. f_equal. lia.
Qed.

(** Indexing with an index array returns when every index is in range. *)
Lemma take_idx_ok {A : Type} (a : list A) (idx : list Z) :
  Forall (fun i => 0 <= i < Z.of_nat (length a)) idx ->
  exists xs : list A,
    take_idx a idx = Ok xs /\ length xs = length idx /\
    forall (j : nat) (i : Z), idx !! j = Some i -> xs !! j = a !! Z.to_nat i.
Proof.
  induction 1 as [|i idx Hi _ (xs & Hxs & Hlen & Hrows)].
  - exists []. split_and!; [done..|]. intros j i Hj. by destruct j.
  - destruct (lookup_lt_is_Some_2 a (Z.to_nat i)) as [x Hx]; [lia|].
    exists (x :: xs). split_and!.
    + simpl. replace i with (Z.of_nat (Z.to_nat i)) at 1 by lia.
      rewrite (getitem_of_nat _ _ _ Hx). simpl. by rewrite Hxs.
    + simpl. by rewrite Hlen.
    + intros [|j] i' Hj; simplify_eq/=; [done|]. by apply Hrows.
Qed.

End PyFacts.

(** ** The loop of [compute_advantage] computes the recursion *)

Section AdvantageFacts.
Context {E : Type} `{Num E}.
Variables gamma lamda : E.

Local Abbreviation G := (gae_spec gamma lamda).

Lemma gae_spec_nil_r (ds : list E) : G ds [] = [].
Proof. by destruct ds. Qed.

Lemma gae_spec_length (ds xs : list E) :
  (length xs <= length ds)%nat -> length (G ds xs) = length xs.
Proof.
  revert xs. induction ds as [|d ds IH]; intros [|x xs] Hle; simpl in *; try lia.
  rewrite IH; [done | lia].
Qed.

Lemma gae_spec_drop (ds xs : list E) (n : nat) (d x : E) :
  ds !! n = Some d -> xs !! n = Some x ->
  G (drop n ds) (drop n xs) =
    add (if truthy d then zero else hd zero (G (drop (S n) ds) (drop (S n) xs)))
        (mul (mul gamma lamda) x)
    :: G (drop (S n) ds) (drop (S n) xs).
Proof.
  intros Hd Hx.
  by rewrite (drop_S ds d n Hd), (drop_S xs x n Hx).
Qed.

Lemma zeros_like_replicate (xs : list E) :
  zeros_like xs = replicate (length xs) zero.
Proof. induction xs as [|x xs IH]; simpl; [done | by rewrite <- IH]. Qed.

(** One pass of the body at index [n], when the array holds zeros up to
    index [n] included. *)
Lemma advantage_body_step (bd : dict E) (ds xs rest : list E) (n : nat)
    (d x a : E) :
  ds !! n = Some d -> xs !! n = Some x ->
  advantage_body gamma lamda ds xs
    (a, <["advantages" := replicate (S n) zero ++ rest]> bd) (Z.of_nat n)
  = let v := add (if truthy d then zero else a) (mul (mul gamma lamda) x) in
    Ok (v, <["advantages" := replicate n zero ++ v :: rest]> bd).
Proof.
  intros Hd Hx. unfold advantage_body.
  rewrite (getitem_of_nat _ _ _ Hd), (getitem_of_nat _ _ _ Hx).
  unfold dict_get. rewrite lookup_insert_eq.
  unfold mbind, result_bind, bind.
  rewrite setitem_of_nat by (rewrite length_app, length_replicate; lia).
  rewrite insert_insert_eq.
  rewrite insert_app_l by (rewrite length_replicate; lia).
  rewrite replicate_S_end.
  rewrite insert_app_r_alt by (rewrite length_replicate; lia).
  rewrite length_replicate, Nat.sub_diag. cbn [list_insert insert].
  by rewrite <- app_assoc.
Qed.

(** The invariant of the loop: once the indices from [n] on are done, the
    local [advantage] is the head of the recursion on the rest and the
    array holds zeros below [n] and the recursion from [n] on. *)
Lemma advantage_loop (bd : dict E) (ds xs : list E) (n : nat) :
  (n <= length xs)%nat -> (length xs <= length ds)%nat ->
  for_each (advantage_body gamma lamda ds xs)
           (rev (map Z.of_nat (seq 0 n)))
           (hd zero (G (drop n ds) (drop n xs)),
            <["advantages" := replicate n zero ++ G (drop n ds) (drop n xs)]> bd)
  = Ok (hd zero (G ds xs), <["advantages" := G ds xs]> bd).
Proof.
  intros Hn Hlen. induction n as [|n IH].
  - done.
  - rewrite seq_S, map_app, rev_app_distr.
    destruct (lookup_lt_is_Some_2 xs n) as [x Hx]; [lia|].
    destruct (lookup_lt_is_Some_2 ds n) as [d Hd]; [lia|].
    cbn [map rev app for_each Nat.add].
    rewrite (advantage_body_step bd ds xs _ n d x _ Hd Hx).
    cbn [bind]. rewrite <- (gae_spec_drop ds xs n d x Hd Hx).
    replace (add _ _) with (hd zero (G (drop n ds) (drop n xs)))
      by (by rewrite (gae_spec_drop ds xs n d x Hd Hx)).
    apply IH. lia.
Qed.

(** [compute_advantage] returns, and stores the recursion under
    ['advantages'], whenever both keys are there and ['dones'] is not
    shorter than ['td_delta']. *)
Lemma compute_advantage_spec (bd : dict E) (ds xs : list E) :
  bd !! "dones" = Some ds -> bd !! "td_delta" = Some xs ->
  (length xs <= length ds)%nat ->
  compute_advantage gamma lamda bd = Ok (<["advantages" := G ds xs]> bd).
Proof.
  intros Hd Hx Hlen. unfold compute_advantage, dict_get.
  rewrite Hd, Hx. simpl. rewrite range1_of_nat.
  pose proof (advantage_loop bd ds xs (length xs)) as Hloop.
  rewrite drop_all, gae_spec_nil_r, app_nil_r in Hloop. simpl in Hloop.
  rewrite zeros_like_replicate.
  unfold mbind, result_bind.
  by rewrite Hloop.
Qed.

(** The recurrence the stored array obeys, index by index. *)
Lemma gae_spec_lookup (ds xs : list E) (t : nat) (d x : E) :
  ds !! t = Some d -> xs !! t = Some x ->
  G ds xs !! t =
    Some (add (if truthy d then zero else default zero (G ds xs !! S t))
              (mul (mul gamma lamda) x)).
Proof.
  revert xs t. induction ds as [|d0 ds IH]; intros [|x0 xs] [|t] Hd Hx;
    simpl in *; try done.
  - simplify_eq. by destruct (G ds xs).
  - by apply IH.
Qed.

(** A true [done] at the last index of a first part cuts the recursion. *)
Lemma gae_spec_app (ds1 ds2 xs1 xs2 : list E) (d x : E) :
  length ds1 = length xs1 -> truthy d = true ->
  G (ds1 ++ d :: ds2) (xs1 ++ x :: xs2)
  = G (ds1 ++ [d]) (xs1 ++ [x]) ++ G ds2 xs2.
Proof.
  intros Hlen Hd. revert xs1 Hlen.
  induction ds1 as [|a ds1 IH]; intros [|y xs1] Hlen; simplify_eq/=.
  - by rewrite Hd.
  - rewrite (IH xs1) by done.
    assert (Hne : G (ds1 ++ [d]) (xs1 ++ [x]) <> []).
    { intros Hnil. apply (f_equal length) in Hnil.
      rewrite gae_spec_length in Hnil; rewrite ?length_app in *; simpl in *; lia. }
    destruct (G (ds1 ++ [d]) (xs1 ++ [x])); done.
Qed.

(** With a true [done] at the last index, the last entry is the running
    value 0 plus the term of that index. *)
Lemma gae_spec_last (ds xs : list E) (d x : E) :
  length ds = length xs -> truthy d = true ->
  last (G (ds ++ [d]) (xs ++ [x])) = Some (add zero (mul (mul gamma lamda) x)).
Proof.
  intros Hlen Hd. revert xs Hlen.
  induction ds as [|a ds IH]; intros [|y xs] Hlen; simplify_eq/=.
  - by rewrite Hd.
  - specialize (IH xs ltac:(done)).
    destruct (G (ds ++ [d]) (xs ++ [x])) as [|v later] eqn:HG; [done|].
    by rewrite last_cons_cons.
Qed.

Lemma compute_advantage_short (bd : dict E) (ds xs : list E) :
  bd !! "dones" = Some ds -> bd !! "td_delta" = Some xs ->
  (length ds < length xs)%nat ->
  compute_advantage gamma lamda bd = Raise IndexError.
Proof.
  intros Hd Hx Hlen. unfold compute_advantage, dict_get.
  rewrite Hd, Hx. simpl. rewrite range1_of_nat.
  destruct (length xs) as [|m] eqn:Hm; [lia|].
  rewrite seq_S, map_app, rev_app_distr.
  cbn [map rev app for_each Nat.add]. unfold advantage_body at 1.
  by rewrite (getitem_of_nat_ge ds) by lia.
Qed.

(** Every outcome of [compute_advantage]. *)
Lemma compute_advantage_eq (bd : dict E) :
  compute_advantage gamma lamda bd =
    match bd !! "dones", bd !! "td_delta" with
    | None, _ => Raise (KeyError "dones")
    | Some _, None => Raise (KeyError "td_delta")
    | Some ds, Some xs =>
        if decide (length xs <= length ds)%nat
        then Ok (<["advantages" := G ds xs]> bd)
        else Raise IndexError
    end.
Proof.
  destruct (bd !! "dones") as [ds|] eqn:Hd.
  - destruct (bd !! "td_delta") as [xs|] eqn:Hx.
    + case_decide.
      * by apply compute_advantage_spec.
      * apply (compute_advantage_short bd ds xs); [done..|lia].
    + unfold compute_advantage, dict_get. by rewrite Hd, Hx.
  - unfold compute_advantage, dict_get. by rewrite Hd.
Qed.

End AdvantageFacts.

(** ** The minibatches of an epoch *)

Section MinibatchFacts.

Lemma minibatches_pos (idx : list Z) (b : Z) :
  0 < b ->
  minibatches idx b
  = Ok (map (fun k : nat => take (Z.to_nat b) (drop (k * Z.to_nat b) idx))
            (seq 0 (Z.to_nat (ceil_div (Z.of_nat (length idx)) b)))).
Proof.
  intros Hb. unfold minibatches. rewrite range_pos by done.
  unfold mbind, result_bind, bind. f_equal. rewrite map_map.
  apply map_ext. intros k.
  replace (Z.of_nat k * b) with (Z.of_nat (k * Z.to_nat b)) by lia.
  replace (Z.of_nat (k * Z.to_nat b) + b)
    with (Z.of_nat (k * Z.to_nat b + Z.to_nat b)) by lia.
  rewrite slice_take_drop by lia. f_equal. lia.
Qed.

(** The minibatches, put end to end, are the index array; there are
    [ceil(n / b)] of them, all of [b] indices but the last, which has
    between 1 and [b]. *)
Lemma minibatches_partition (idx : list Z) (b : Z) :
  0 < b ->
  exists bs : list (list Z),
    minibatches idx b = Ok bs /\
    concat bs = idx /\
    Z.of_nat (length bs) = ceil_div (Z.of_nat (length idx)) b /\
    forall (k : nat) (mb : list Z), bs !! k = Some mb ->
      if decide (S k < length bs)%nat
      then Z.of_nat (length mb) = b
      else 0 < Z.of_nat (length mb) <= b.
Proof.
  intros Hb. eexists. split; [by apply minibatches_pos|].
  pose proof (ceil_div_spec (Z.of_nat (length idx)) b ltac:(lia) Hb)
    as (Hc0 & Hlo & Hhi).
  set (c := ceil_div (Z.of_nat (length idx)) b) in *.
  split_and!.
  - rewrite concat_chunks. apply take_ge. nia.
  - rewrite length_map, length_seq. lia.
  - intros k mb Hk. rewrite length_map, length_seq.
    rewrite list_lookup_fmap in Hk.
    destruct (seq 0 (Z.to_nat c) !! k) as [k'|] eqn:Hseq; [|done].
    apply lookup_seq in Hseq as [-> Hkc]. simpl in Hk. simplify_eq.
    rewrite length_take, length_drop. case_decide; nia.
Qed.

End MinibatchFacts.

(** ** The loops of [train] *)

Section TrainFacts.
Context {E : Type} `{Num E} `{Torch E} `{Networks E}.

Lemma same_config_refl (a : PPO) : same_config a a.
Proof. by repeat split. Qed.

Lemma same_config_update (a : PPO) (b : Batch E) : same_config (update a b) a.
Proof. by repeat split. Qed.

Lemma same_config_trans (a b c : PPO) :
  same_config a b -> same_config b c -> same_config a c.
Proof. unfold same_config. intros (?&?&?&?&?) (?&?&?&?&?). split_and!; congruence. Qed.

Lemma pass_of_config (t : Tensors E) (a b : PPO) (st : Step) :
  same_config a b -> pass_of t a st -> pass_of t b st.
Proof.
  intros Hab (Hsel & Hpass & Hcfg). split_and!; [done..|].
  by apply (same_config_trans _ a).
Qed.

Lemma chained_app (self : PPO) (new1 new2 : list Step) :
  chained self new1 -> chained (after self new1) new2 ->
  chained self (new1 ++ new2).
Proof.
  revert self. induction new1 as [|st new1 IH]; intros self; simpl; [done|].
  intros [-> Hrest] Hnew2. split; [done|]. apply IH; [done|].
  unfold after in *. by simpl in Hnew2.
Qed.

Lemma after_app (self : PPO) (new1 new2 : list Step) :
  after self (new1 ++ new2) = after (after self new1) new2.
Proof. unfold after. by rewrite foldl_app. Qed.

(** What one pass of the body did, when it returned. *)
Lemma sgd_body_inv (t : Tensors E) (idx : list Z) (self self' : PPO)
    (steps steps' : list Step) (s : Z) :
  sgd_body t idx (self, steps) s = Ok (self', steps') ->
  exists b : Batch E,
    selects t (slice idx s (s + batch_size self)) b /\
    self' = update self b /\
    steps' = steps ++ [pass self (slice idx s (s + batch_size self)) b].
Proof.
  unfold sgd_body, selects, mbind, result_bind.
  set (i := slice idx s (s + batch_size self)).
  destruct (take_idx (obs_tensor t) i) as [o|] eqn:Ho; [|done].
  destruct (take_idx (next_obs_tensor t) i) as [no|] eqn:Hno; [|done].
  destruct (take_idx (action_tensor t) i) as [a|] eqn:Ha; [|done].
  destruct (take_idx (done_tensor t) i) as [d|] eqn:Hd; [|done].
  destruct (take_idx (reward_tensor t) i) as [r|] eqn:Hr; [|done].
  destruct (take_idx (advantage_tensor t) i) as [adv|] eqn:Hadv; [|done].
  destruct (take_idx (old_log_prob t) i) as [olp|] eqn:Holp; [|done].
  cbn [bind]. intros Heq. injection Heq as <- <-.
  exists {| sgd_obs_tensor := o; sgd_next_obs_tensor := no;
            sgd_action_tensor := a; sgd_done_tensor := d;
            sgd_reward_tensor := r; sgd_advantage_tensor := adv;
            sgd_old_log_prob := olp |}.
  by split_and!.
Qed.

(** One pass of the body returns when the indices it selects are in
    range. *)
Lemma sgd_body_ok (t : Tensors E) (n : nat) (idx : list Z) (self : PPO)
    (steps : list Step) (s : Z) :
  aligned t n ->
  Forall (fun i => 0 <= i < Z.of_nat n) (slice idx s (s + batch_size self)) ->
  exists r, sgd_body t idx (self, steps) s = Ok r.
Proof.
  intros (Ho & Hno & Ha & Hd & Hr & Hadv & Holp) Hin.
  unfold sgd_body, mbind, result_bind.
  set (i := slice idx s (s + batch_size self)) in *.
  destruct (take_idx_ok (obs_tensor t) i) as (? & -> & _); [by rewrite Ho|].
  destruct (take_idx_ok (next_obs_tensor t) i) as (? & -> & _); [by rewrite Hno|].
  destruct (take_idx_ok (action_tensor t) i) as (? & -> & _); [by rewrite Ha|].
  destruct (take_idx_ok (done_tensor t) i) as (? & -> & _); [by rewrite Hd|].
  destruct (take_idx_ok (reward_tensor t) i) as (? & -> & _); [by rewrite Hr|].
  destruct (take_idx_ok (advantage_tensor t) i) as (? & -> & _); [by rewrite Hadv|].
  destruct (take_idx_ok (old_log_prob t) i) as (? & -> & _); [by rewrite Holp|].
  cbn [bind]. by eexists.
Qed.

(** The inner loop, when it returned: the passes it added, one for each
    start, each on the slice of the index array at its start. *)
Lemma sgd_loop_inv (t : Tensors E) (idx : list Z) (starts : list Z)
    (self self' : PPO) (steps steps' : list Step) :
  for_each (sgd_body t idx) starts (self, steps) = Ok (self', steps') ->
  exists new : list Step,
    steps' = steps ++ new /\
    chained self new /\
    self' = after self new /\
    same_config self' self /\
    Forall (pass_of t self) new /\
    map step_idx new
      = map (fun s => slice idx s (s + batch_size self)) starts.
Proof.
  revert self steps.
  induction starts as [|s starts IH]; intros self steps; cbn [for_each].
  - intros [= <- <-]. exists []. rewrite app_nil_r.
    split_and!; first [done | apply same_config_refl].
  - destruct (sgd_body t idx (self, steps) s) as [[self1 steps1]|] eqn:Hbody;
      cbn [bind]; [|done].
    apply sgd_body_inv in Hbody as (b & Hsel & -> & ->).
    intros Hloop.
    apply IH in Hloop as (new & -> & Hch & -> & Hcfg & Hpass & Hidx).
    exists (pass self (slice idx s (s + batch_size self)) b :: new).
    split_and!.
    + by rewrite <- app_assoc.
    + done.
    + done.
    + eapply same_config_trans; [exact Hcfg|apply same_config_update].
    + constructor.
      * split_and!; [done..|apply same_config_refl].
      * eapply Forall_impl; [exact Hpass|]. intros st.
        apply pass_of_config, same_config_update.
    + simpl. by rewrite Hidx.
Qed.

(** The inner loop returns when the index array holds indices in range
    only and the starts are not negative. *)
Lemma sgd_loop_ok (t : Tensors E) (n : nat) (idx : list Z) (starts : list Z)
    (self : PPO) (steps : list Step) :
  aligned t n ->
  Forall (fun i => 0 <= i < Z.of_nat n) idx ->
  0 < batch_size self ->
  Forall (fun s => 0 <= s) starts ->
  exists r, for_each (sgd_body t idx) starts (self, steps) = Ok r.
Proof.
  intros Hal Hidx. revert self steps.
  induction starts as [|s starts IH]; intros self steps Hb Hstarts; cbn [for_each].
  - by eexists.
  - inversion Hstarts as [|? ? Hs Hstarts']; subst.
    destruct (sgd_body_ok t n idx self steps s Hal) as [[self1 steps1] Hbody].
    { replace s with (Z.of_nat (Z.to_nat s)) by lia.
      replace (Z.of_nat (Z.to_nat s) + batch_size self)
        with (Z.of_nat (Z.to_nat s + Z.to_nat (batch_size self))) by lia.
      rewrite slice_take_drop by lia.
      apply Forall_take, Forall_drop, Hidx. }
    rewrite Hbody. cbn [bind].
    apply sgd_body_inv in Hbody as (b & _ & -> & _).
    by apply IH.
Qed.

(** One epoch, when it returned: the passes it added are on the
    minibatches of the shuffled index array. *)
Lemma epoch_body_inv (t : Tensors E) (self self' : PPO) (g g' : Rng)
    (steps steps' : list Step) (e : Z) :
  epoch_body t (self, g, steps) e = Ok (self', g', steps') ->
  let sh := shuffle g (range1 (Z.of_nat (length (obs_tensor t)))) in
  exists new : list Step,
    g' = sh.2 /\
    steps' = steps ++ new /\
    chained self new /\
    self' = after self new /\
    same_config self' self /\
    Forall (pass_of t self) new /\
    minibatches sh.1 (batch_size self) = Ok (map step_idx new).
Proof.
  intros Hrun sh. unfold epoch_body in Hrun. unfold minibatches.
  fold sh in Hrun. destruct sh as [idx g1]. cbn [fst snd].
  unfold mbind, result_bind in *.
  destruct (range 0 (Z.of_nat (length idx)) (batch_size self)) as [starts|];
    cbn [bind] in *; [|done].
  destruct (for_each (sgd_body t idx) starts (self, steps))
    as [[self1 steps1]|] eqn:Hloop; cbn [bind] in *; [|done].
  injection Hrun as <- <- <-.
  apply sgd_loop_inv in Hloop as (new & -> & Hch & -> & Hcfg & Hpass & Hidx).
  exists new. split_and!; try done. by rewrite Hidx.
Qed.

Lemma range1_in_range (n : nat) :
  Forall (fun i => 0 <= i < Z.of_nat n) (range1 (Z.of_nat n)).
Proof.
  rewrite range1_of_nat. apply Forall_forall. intros i Hi.
  apply list_elem_of_fmap in Hi as (k & -> & Hk).
  apply elem_of_seq in Hk. lia.
Qed.

(** One epoch returns on aligned tensors, for a batch size that is not 0. *)
Lemma epoch_body_ok (t : Tensors E) (n : nat) (self : PPO) (g : Rng)
    (steps : list Step) (e : Z) :
  shuffle_permutes -> aligned t n -> batch_size self <> 0 ->
  exists r, epoch_body t (self, g, steps) e = Ok r.
Proof.
  intros Hsh Hal Hb. unfold epoch_body.
  pose proof (Hsh g (range1 (Z.of_nat (length (obs_tensor t))))) as Hperm.
  destruct (shuffle g (range1 (Z.of_nat (length (obs_tensor t))))) as [idx g1].
  cbn [fst] in Hperm. unfold mbind, result_bind.
  destruct (decide (0 < batch_size self)) as [Hpos|Hneg].
  - rewrite range_pos by done. cbn [bind].
    destruct (sgd_loop_ok t n idx
                (map (fun k : nat => Z.of_nat k * batch_size self)
                     (seq 0 (Z.to_nat (ceil_div (Z.of_nat (length idx))
                                                (batch_size self)))))
                self steps Hal) as [r ->]; [| done | | by eexists].
    + rewrite Hperm. destruct Hal as [-> _]. apply range1_in_range.
    + apply Forall_forall. intros s Hs.
      apply list_elem_of_fmap in Hs as (k & -> & _). lia.
  - rewrite range_neg by lia. cbn [bind for_each]. by eexists.
Qed.

(** The outer loop, when it returned. *)
Lemma epoch_loop_inv (t : Tensors E) (epochs : list Z) (self self' : PPO)
    (g g' : Rng) (steps steps' : list Step) :
  for_each (epoch_body t) epochs (self, g, steps) = Ok (self', g', steps') ->
  exists new : list Step,
    steps' = steps ++ new /\
    chained self new /\
    self' = after self new /\
    same_config self' self /\
    Forall (pass_of t self) new.
Proof.
  revert self g steps.
  induction epochs as [|e epochs IH]; intros self g steps; cbn [for_each].
  - intros [= <- <- <-]. exists []. rewrite app_nil_r.
    split_and!; first [done | apply same_config_refl].
  - destruct (epoch_body t (self, g, steps) e) as [[[self1 g1] steps1]|] eqn:Hep;
      cbn [bind]; [|done].
    apply epoch_body_inv in Hep as (new1 & _ & -> & Hch1 & -> & Hcfg1 & Hpass1 & _).
    intros Hloop.
    apply IH in Hloop as (new2 & -> & Hch2 & -> & Hcfg2 & Hpass2).
    exists (new1 ++ new2). split_and!.
    + by rewrite app_assoc.
    + by apply chained_app.
    + by rewrite after_app.
    + by apply (same_config_trans _ (after self new1)).
    + apply Forall_app. split; [done|].
      eapply Forall_impl; [exact Hpass2|]. intros st. by apply pass_of_config.
Qed.

(** The outer loop returns on aligned tensors, for a batch size that is
    not 0. *)
Lemma epoch_loop_ok (t : Tensors E) (n : nat) (epochs : list Z) (self : PPO)
    (g : Rng) (steps : list Step) :
  shuffle_permutes -> aligned t n -> batch_size self <> 0 ->
  exists r, for_each (epoch_body t) epochs (self, g, steps) = Ok r.
Proof.
  intros Hsh Hal. revert self g steps.
  induction epochs as [|e epochs IH]; intros self g steps Hb; cbn [for_each].
  - by eexists.
  - destruct (epoch_body_ok t n self g steps e Hsh Hal Hb)
      as [[[self1 g1] steps1] Hep].
    rewrite Hep. cbn [bind].
    apply epoch_body_inv in Hep as (new1 & _ & _ & _ & _ & Hcfg & _).
    apply IH. destruct Hcfg as [-> _]. done.
Qed.

Lemma td_delta_of_length (self : PPO) (obs next_obs dones rewards : list E) :
  (length (td_delta_of self obs next_obs dones rewards) <= length dones)%nat.
Proof. unfold td_delta_of. rewrite !length_zip_with. lia. Qed.

(** The gather before the loops does not raise on at least one row and
    stored actions that are indices of their rows. *)
Lemma gather_check_ok (net : PolicyNet) (obs act : list E) :
  obs <> [] ->
  (forall (t : nat) (o a : E), obs !! t = Some o -> act !! t = Some a ->
     th_gather_ok (policy_forward net o) a = true) ->
  gather_check net obs act = Ok tt.
Proof.
  intros Hne Hok. unfold gather_check. destruct obs as [|o0 obs0] eqn:Hobs; [done|].
  rewrite <- Hobs in *. clear Hobs Hne.
  replace (forallb _ (zip obs act)) with true; [done|].
  symmetry. apply forallb_forall. intros [o a] Hin.
  apply list_elem_of_In, list_elem_of_lookup in Hin as [t Ht].
  apply lookup_zip_with_Some in Ht as (o' & a' & [= <- <-] & Ho & Ha).
  by apply (Hok t).
Qed.

(** The part of [train] before the loops returns where the five keys are
    there and the gather does not raise. *)
Lemma prepare_eq (self : PPO) (bd : dict E) (obs nobs act dn rw : list E) :
  bd !! "observations" = Some obs -> bd !! "next_observations" = Some nobs ->
  bd !! "actions" = Some act -> bd !! "dones" = Some dn ->
  bd !! "rewards" = Some rw ->
  gather_check (policy_net self) (map th_float obs) (map th_long act) = Ok tt ->
  prepare self bd
  = Ok (tensors_of self obs nobs act dn rw, derived_of self obs nobs dn rw bd).
Proof.
  intros Ho Hno Ha Hd Hr Hg. unfold prepare, dict_get.
  rewrite Ho, Hno, Ha, Hd, Hr. unfold mbind, result_bind. cbn [bind].
  rewrite Hg. cbn [bind].
  fold (td_delta_of self (map th_float obs) (map th_float nobs)
                    (map th_long dn) (map th_float rw)).
  set (td := td_delta_of _ _ _ _ _).
  rewrite (compute_advantage_spec _ _ _ dn td).
  - cbn [bind]. by rewrite lookup_insert_eq.
  - by rewrite lookup_insert_ne.
  - by rewrite lookup_insert_eq.
  - pose proof (td_delta_of_length self (map th_float obs) (map th_float nobs)
                  (map th_long dn) (map th_float rw)) as Hlen.
    rewrite length_map in Hlen. done.
Qed.

(** Where the gather before the loops raises, so does [train]'s first
    part. *)
Lemma prepare_gather_raises (self : PPO) (bd : dict E) (obs nobs act dn rw : list E)
    (e : exn) :
  bd !! "observations" = Some obs -> bd !! "next_observations" = Some nobs ->
  bd !! "actions" = Some act -> bd !! "dones" = Some dn ->
  bd !! "rewards" = Some rw ->
  gather_check (policy_net self) (map th_float obs) (map th_long act) = Raise e ->
  prepare self bd = Raise e.
Proof.
  intros Ho Hno Ha Hd Hr Hg. unfold prepare, dict_get.
  rewrite Ho, Hno, Ha, Hd, Hr. unfold mbind, result_bind. cbn [bind].
  by rewrite Hg.
Qed.

Lemma prepare_inv_gather (self : PPO) (bd bd' : dict E) (t : Tensors E) :
  prepare self bd = Ok (t, bd') ->
  exists obs nobs act dn rw : list E,
    bd !! "observations" = Some obs /\ bd !! "next_observations" = Some nobs /\
    bd !! "actions" = Some act /\ bd !! "dones" = Some dn /\
    bd !! "rewards" = Some rw /\
    gather_check (policy_net self) (map th_float obs) (map th_long act) = Ok tt /\
    t = tensors_of self obs nobs act dn rw /\
    bd' = derived_of self obs nobs dn rw bd.
Proof.
  intros Hrun.
  destruct (bd !! "observations") as [obs|] eqn:Ho;
    [|by unfold prepare, dict_get in Hrun; rewrite Ho in Hrun].
  destruct (bd !! "next_observations") as [nobs|] eqn:Hno;
    [|by unfold prepare, dict_get in Hrun; rewrite Ho, Hno in Hrun].
  destruct (bd !! "actions") as [act|] eqn:Ha;
    [|by unfold prepare, dict_get in Hrun; rewrite Ho, Hno, Ha in Hrun].
  destruct (bd !! "dones") as [dn|] eqn:Hd;
    [|by unfold prepare, dict_get in Hrun; rewrite Ho, Hno, Ha, Hd in Hrun].
  destruct (bd !! "rewards") as [rw|] eqn:Hr;
    [|by unfold prepare, dict_get in Hrun; rewrite Ho, Hno, Ha, Hd, Hr in Hrun].
  destruct (gather_check (policy_net self) (map th_float obs) (map th_long act))
    as [[]|e] eqn:Hg.
  - rewrite (prepare_eq self bd obs nobs act dn rw) in Hrun by done.
    injection Hrun as <- <-. exists obs, nobs, act, dn, rw. by split_and!.
  - by rewrite (prepare_gather_raises self bd obs nobs act dn rw e) in Hrun.
Qed.

Lemma prepare_inv (self : PPO) (bd bd' : dict E) (t : Tensors E) :
  prepare self bd = Ok (t, bd') ->
  exists obs nobs act dn rw : list E,
    bd !! "observations" = Some obs /\ bd !! "next_observations" = Some nobs /\
    bd !! "actions" = Some act /\ bd !! "dones" = Some dn /\
    bd !! "rewards" = Some rw /\
    t = tensors_of self obs nobs act dn rw /\
    bd' = derived_of self obs nobs dn rw bd.
Proof.
  intros Hrun.
  apply prepare_inv_gather in Hrun
    as (obs & nobs & act & dn & rw & Ho & Hno & Ha & Hd & Hr & _ & Ht & Hbd).
  exists obs, nobs, act, dn, rw. by split_and!.
Qed.

Lemma tensors_of_aligned (self : PPO) (obs nobs act dn rw : list E) (n : nat) :
  length obs = n -> length nobs = n -> length act = n ->
  length dn = n -> length rw = n ->
  aligned (tensors_of self obs nobs act dn rw) n.
Proof.
  intros Ho Hno Ha Hd Hr. unfold aligned, tensors_of. cbn.
  rewrite !length_map. split_and!; try done.
  - rewrite gae_spec_length;
      unfold td_delta_of; rewrite !length_zip_with, !length_map; lia.
  - unfold log_prob. rewrite length_zip_with, !length_map. lia.
Qed.

(** What [train] did, when it returned. *)
Lemma train_inv (self self' : PPO) (g g' : Rng) (bd bd' : dict E)
    (steps : list Step) :
  train self g bd = Ok (self', g', bd', steps) ->
  exists t : Tensors E,
    prepare self bd = Ok (t, bd') /\
    chained self steps /\
    self' = after self steps /\
    Forall (pass_of t self) steps.
Proof.
  unfold train, mbind, result_bind.
  destruct (prepare self bd) as [[t bd1]|]; cbn [bind fst snd]; [|done].
  destruct (for_each (epoch_body t) (range1 (n_epoch self)) (self, g, []))
    as [[[self1 g1] steps1]|] eqn:Hloop; cbn [bind fst snd]; [|done].
  intros [= <- <- <- <-].
  apply epoch_loop_inv in Hloop as (new & -> & Hch & -> & _ & Hpass).
  exists t. by split_and!.
Qed.

(** [train] returns on a buffer with its five keys and one length, for a
    batch size that is not 0, where the gather before the loops does not
    raise. *)
Lemma train_ok (self : PPO) (g : Rng) (bd : dict E)
    (obs nobs act dn rw : list E) (n : nat) :
  shuffle_permutes ->
  bd !! "observations" = Some obs -> bd !! "next_observations" = Some nobs ->
  bd !! "actions" = Some act -> bd !! "dones" = Some dn ->
  bd !! "rewards" = Some rw ->
  length obs = n -> length nobs = n -> length act = n ->
  length dn = n -> length rw = n ->
  gather_check (policy_net self) (map th_float obs) (map th_long act) = Ok tt ->
  batch_size self <> 0 ->
  exists (self' : PPO) (g' : Rng) (steps : list Step),
    train self g bd
    = Ok (self', g', derived_of self obs nobs dn rw bd, steps).
Proof.
  intros Hsh Ho Hno Ha Hd Hr Lo Lno La Ld Lr Hg Hb. unfold train.
  rewrite (prepare_eq self bd obs nobs act dn rw) by done.
  unfold mbind, result_bind. cbn [bind fst snd].
  destruct (epoch_loop_ok (tensors_of self obs nobs act dn rw) n
              (range1 (n_epoch self)) self g [] Hsh)
    as [[[self1 g1] steps1] ->]; [by apply tensors_of_aligned|done|].
  cbn [bind fst snd]. by eexists _, _, _.
Qed.


End TrainFacts.

Section EmptyFacts.
Context {E : Type} `{Num E} `{Torch E} `{Networks E}.




End EmptyFacts.

(** ** The estimator on three steps and in general *)

(** C1 (as amended).  With [gl = gamma * lamda]: on a buffer of three
    transitions with [done = [False, False, True]] and
    [td_delta = [d0, d1, d2]], [compute_advantage] stores
    [advantage[2] = gl*d2], [advantage[1] = gl*d1 + gl*d2] and
    [advantage[0] = gl*d0 + gl*d1 + gl*d2] (every term carries the factor [gl]
    once).  In general it returns and stores an array as long as [td_delta]
    in which entry [t] is the running value, reset to 0 where [done[t]] is
    true and the entry after it otherwise (0 after the last), plus
    [gl * td_delta[t]]. *)
Theorem compute_advantage_recursion {E : Type} `{Num E}
    (rt : ring_theory zero one add mul sub neg (@eq E))
    (gamma lamda : E) (bd : dict E) (ds xs : list E) :
  bd !! "dones" = Some ds -> bd !! "td_delta" = Some xs ->
  (length xs <= length ds)%nat ->
  let gl := mul gamma lamda in
  exists adv : list E,
    compute_advantage gamma lamda bd = Ok (<["advantages" := adv]> bd) /\
    length adv = length xs /\
    (forall (t : nat) (d x : E), ds !! t = Some d -> xs !! t = Some x ->
       adv !! t = Some (add (if truthy d then zero else default zero (adv !! S t))
                            (mul gl x))) /\
    (forall d0 d1 d2 : E,
       xs = [d0; d1; d2] -> map truthy ds = [false; false; true] ->
       adv = [add (add (mul gl d0) (mul gl d1)) (mul gl d2);
              add (mul gl d1) (mul gl d2);
              mul gl d2]).
Proof.
  intros Hd Hx Hlen gl. exists (gae_spec gamma lamda ds xs).
  split; [by apply compute_advantage_spec|].
  split; [by apply gae_spec_length|].
  split; [intros t d x Hdt Hxt; by apply gae_spec_lookup|].
  intros d0 d1 d2 -> Hds.
  destruct ds as [|a0 [|a1 [|a2 [|]]]]; simplify_eq/=.
  repeat match goal with Ht : truthy _ = _ |- _ => rewrite Ht end.
  subst gl. set (gl := mul gamma lamda).
  assert (Hz : forall y : E, add zero y = y) by apply (Radd_0_l rt).
  assert (Hc : forall y z : E, add y z = add z y) by apply (Radd_comm rt).
  assert (Ha : forall x y z : E, add x (add y z) = add (add x y) z)
    by apply (Radd_assoc rt).
  rewrite Hz. f_equal; [|f_equal].
  - rewrite (Hc (add (mul gl d2) (mul gl d1))), (Hc (mul gl d2)). apply Ha.
  - apply Hc.
Qed.

Lemma compute_advantage_recursion_witness :
  exists adv : list Qc,
    compute_advantage half half episode3 = Ok (<["advantages" := adv]> episode3) /\
    length adv = 3%nat /\
    adv = [add (add (mul (mul half half) (Q2Qc 1)) (mul (mul half half) (Q2Qc 1)))
               (mul (mul half half) (Q2Qc 1));
           add (mul (mul half half) (Q2Qc 1)) (mul (mul half half) (Q2Qc 1));
           mul (mul half half) (Q2Qc 1)].
Proof.
  destruct (compute_advantage_recursion Qc_ring half half episode3
              [Q2Qc 0; Q2Qc 0; Q2Qc 1] [Q2Qc 1; Q2Qc 1; Q2Qc 1])
    as (adv & Hrun & Hlen & _ & Hthree).
  - reflexivity.
  - reflexivity.
  - simpl. lia.
  - exists adv. split; [exact Hrun|]. split; [exact Hlen|].
    apply Hthree; reflexivity.
Defined.

(** C1, as stated, fails: with [gamma = lamda = 1/2], so [gl = 1/4], and
    [td_delta = [1, 1, 1]], the stored array is [3/4, 1/2, 1/4], not the
    [gl*d0 + gl^2*d1 + gl^3*d2 = 21/64], [gl*d1 + gl^2*d2 = 5/16], [gl*d2]
    of the claim. *)
Lemma compute_advantage_geometric_weights_fail :
  let gl : Qc := mul half half in
  let d : Qc := Q2Qc 1 in
  ~ exists bd' : dict Qc,
      compute_advantage half half episode3 = Ok bd' /\
      bd' !! "advantages" =
        Some [add (add (mul gl d) (mul (mul gl gl) d)) (mul (mul (mul gl gl) gl) d);
              add (mul gl d) (mul (mul gl gl) d);
              mul gl d].
Proof.
  intros gl d (bd' & Hrun & Hadv).
  rewrite (compute_advantage_spec half half episode3
             [Q2Qc 0; Q2Qc 0; Q2Qc 1] [Q2Qc 1; Q2Qc 1; Q2Qc 1]) in Hrun;
    [|reflexivity|reflexivity|simpl; lia].
  injection Hrun as <-. rewrite lookup_insert_eq in Hadv.
  apply (f_equal (fun o : option (list Qc) => this <$> (default [] o !! 1%nat))) in Hadv.
  vm_compute in Hadv. discriminate Hadv.
Qed.

(** ** Episode boundaries *)

(** C2.  When [done[k]] is true, the running value is reset before index [k]
    is processed, so [advantage[k]] is 0 plus the term of index [k], and the
    array stored for the whole buffer is the array of the steps up to [k]
    computed on their own, followed by the array of the steps after [k]
    computed on their own.  So no [td_delta] after [k] reaches an
    advantage at an index up to [k]; two episodes of two steps are the case
    [k = 1] of four steps. *)
Theorem compute_advantage_episode_boundary {E : Type} `{Num E}
    (gamma lamda : E) (bd bd1 bd2 : dict E) (ds1 ds2 xs1 xs2 : list E) (d x : E) :
  bd !! "dones" = Some (ds1 ++ d :: ds2) ->
  bd !! "td_delta" = Some (xs1 ++ x :: xs2) ->
  length ds1 = length xs1 ->
  truthy d = true ->
  (length xs2 <= length ds2)%nat ->
  bd1 !! "dones" = Some (ds1 ++ [d]) -> bd1 !! "td_delta" = Some (xs1 ++ [x]) ->
  bd2 !! "dones" = Some ds2 -> bd2 !! "td_delta" = Some xs2 ->
  exists adv1 adv2 : list E,
    compute_advantage gamma lamda bd1 = Ok (<["advantages" := adv1]> bd1) /\
    compute_advantage gamma lamda bd2 = Ok (<["advantages" := adv2]> bd2) /\
    length adv1 = S (length xs1) /\
    last adv1 = Some (add zero (mul (mul gamma lamda) x)) /\
    compute_advantage gamma lamda bd = Ok (<["advantages" := adv1 ++ adv2]> bd).
Proof.
  intros Hd Hx Hlen Hdone Hlen2 Hd1 Hx1 Hd2 Hx2.
  exists (gae_spec gamma lamda (ds1 ++ [d]) (xs1 ++ [x])),
         (gae_spec gamma lamda ds2 xs2).
  split_and!.
  - apply compute_advantage_spec; [done..|]. rewrite !length_app. simpl. lia.
  - by apply compute_advantage_spec.
  - rewrite gae_spec_length; rewrite !length_app; simpl; lia.
  - by apply gae_spec_last.
  - rewrite <- gae_spec_app by done.
    apply compute_advantage_spec; [done..|]. rewrite !length_app. simpl. lia.
Qed.

Lemma compute_advantage_episode_boundary_witness :
  exists adv1 adv2 : list Qc,
    compute_advantage half half episode_a = Ok (<["advantages" := adv1]> episode_a) /\
    compute_advantage half half episode_b = Ok (<["advantages" := adv2]> episode_b) /\
    length adv1 = 2%nat /\
    last adv1 = Some (add zero (mul (mul half half) (Q2Qc 2))) /\
    compute_advantage half half episodes22
      = Ok (<["advantages" := adv1 ++ adv2]> episodes22).
Proof.
  apply (compute_advantage_episode_boundary half half episodes22 episode_a episode_b
           [Q2Qc 0] [Q2Qc 0; Q2Qc 1] [Q2Qc 1] [Q2Qc 3; Q2Qc 4] (Q2Qc 1) (Q2Qc 2));
    reflexivity.
Defined.

(** ** What [compute_advantage] reads and writes *)

(** C10.  When [compute_advantage] returns, the dictionary it leaves is the
    one it got with ['advantages'] set to an array as long as ['td_delta'];
    every other key is as before; the array depends on the ['dones'] and
    ['td_delta'] entries only (any dictionary with the same two entries gets
    the same array); and a second call in a row returns the same
    dictionary. *)
Theorem compute_advantage_idempotent {E : Type} `{Num E}
    (gamma lamda : E) (bd bd' : dict E) :
  compute_advantage gamma lamda bd = Ok bd' ->
  exists ds xs adv : list E,
    bd !! "dones" = Some ds /\ bd !! "td_delta" = Some xs /\
    bd' = <["advantages" := adv]> bd /\
    length adv = length xs /\
    (forall key : string, key <> "advantages" -> bd' !! key = bd !! key) /\
    (forall other : dict E,
       other !! "dones" = Some ds -> other !! "td_delta" = Some xs ->
       compute_advantage gamma lamda other = Ok (<["advantages" := adv]> other)) /\
    compute_advantage gamma lamda bd' = Ok bd'.
Proof.
  rewrite compute_advantage_eq.
  destruct (bd !! "dones") as [ds|] eqn:Hd; [|done].
  destruct (bd !! "td_delta") as [xs|] eqn:Hx; [|done].
  case_decide as Hlen; [|done]. intros [= <-].
  exists ds, xs, (gae_spec gamma lamda ds xs).
  split_and!; try done.
  - by apply gae_spec_length.
  - intros key Hkey. by rewrite lookup_insert_ne.
  - intros other Hod Hox. by apply compute_advantage_spec.
  - rewrite (compute_advantage_spec gamma lamda _ ds xs);
      rewrite ?lookup_insert_ne by done; try done.
    by rewrite insert_insert_eq.
Qed.

Lemma compute_advantage_idempotent_witness :
  exists bd' : dict Qc,
    compute_advantage half half episode3 = Ok bd' /\
    compute_advantage half half bd' = Ok bd' /\
    (forall key : string, key <> "advantages" -> bd' !! key = episode3 !! key).
Proof.
  exists (<["advantages" := gae_spec half half
              [Q2Qc 0; Q2Qc 0; Q2Qc 1] [Q2Qc 1; Q2Qc 1; Q2Qc 1]]> episode3).
  assert (Hrun : compute_advantage half half episode3
                 = Ok (<["advantages" := gae_spec half half
                          [Q2Qc 0; Q2Qc 0; Q2Qc 1] [Q2Qc 1; Q2Qc 1; Q2Qc 1]]> episode3)).
  { apply compute_advantage_spec; [reflexivity|reflexivity|simpl; lia]. }
  destruct (compute_advantage_idempotent half half episode3 _ Hrun)
    as (ds & xs & adv & _ & _ & _ & _ & Hkeys & _ & Hagain).
  split; [exact Hrun|]. split; [exact Hagain|exact Hkeys].
Defined.

(** ** Minibatches *)

Lemma small_shuffle_permutes : shuffle_permutes (E := XQ.t).
Proof. intros g idx. simpl. symmetry. apply Permutation_rev. Qed.

(** C3.  In an epoch of [train] over [n > 0] transitions with a batch size
    [b > 0], when the shuffle permutes: the epoch returns, the index arrays
    of its passes put end to end are a permutation of [0 .. n-1] (every index
    once, none twice), there are [ceil(n / b)] passes, and every index array
    has [b] indices but the last, which has between 1 and [b]. *)
Theorem epoch_minibatches_cover {E : Type} `{Num E} `{Torch E} `{Networks E}
    (t : Tensors E) (n : nat) (self : PPO) (g : Rng) (steps : list Step) (e : Z) :
  shuffle_permutes -> aligned t n -> (0 < n)%nat -> 0 < batch_size self ->
  exists (self' : PPO) (g' : Rng) (new : list Step),
    epoch_body t (self, g, steps) e = Ok (self', g', steps ++ new) /\
    concat (map step_idx new) ≡ₚ map Z.of_nat (seq 0 n) /\
    NoDup (concat (map step_idx new)) /\
    (forall i : Z, i ∈ concat (map step_idx new) <-> 0 <= i < Z.of_nat n) /\
    Z.of_nat (length new) = ceil_div (Z.of_nat n) (batch_size self) /\
    (forall (k : nat) (st : Step), new !! k = Some st ->
       if decide (S k < length new)%nat
       then Z.of_nat (length (step_idx st)) = batch_size self
       else 0 < Z.of_nat (length (step_idx st)) <= batch_size self).
Proof.
  intros Hsh Hal Hn Hb.
  destruct (epoch_body_ok t n self g steps e Hsh Hal ltac:(lia))
    as [[[self' g'] steps'] Hrun].
  pose proof (epoch_body_inv _ _ _ _ _ _ _ _ Hrun)
    as (new & _ & -> & _ & _ & _ & _ & Hmb).
  exists self', g', new. split; [done|].
  pose proof (Hsh g (range1 (Z.of_nat (length (obs_tensor t))))) as Hperm.
  destruct Hal as [Hlen _]. rewrite Hlen in Hperm, Hmb.
  set (idx := (shuffle g (range1 (Z.of_nat n))).1) in *.
  destruct (minibatches_partition idx (batch_size self) Hb)
    as (bs & Hbs & Hcat & Hcount & Hsizes).
  rewrite Hbs in Hmb. injection Hmb as ->.
  assert (Hidx : length idx = n).
  { rewrite Hperm, range1_of_nat, length_map. apply length_seq. }
  rewrite Hcat. rewrite Hidx in Hcount. rewrite range1_of_nat in Hperm.
  rewrite length_map in Hcount, Hsizes.
  split_and!.
  - done.
  - rewrite Hperm. apply (NoDup_fmap_2 Z.of_nat), NoDup_seq.
  - intros i. rewrite Hperm. split.
    + intros Hi. apply list_elem_of_fmap in Hi as (k & -> & Hk).
      apply elem_of_seq in Hk. lia.
    + intros Hi. apply list_elem_of_fmap. exists (Z.to_nat i).
      split; [lia|]. apply elem_of_seq. lia.
  - done.
  - intros k st Hk. apply (Hsizes k (step_idx st)).
    by rewrite list_lookup_fmap, Hk.
Qed.

Lemma epoch_minibatches_cover_witness :
  exists (self' : PPO) (g' : Rng) (new : list Step),
    epoch_body (tensors_of (small_agent 2 1) [XQ.Fin 1; XQ.Fin 1; XQ.Fin 1]
                  [XQ.Fin 1; XQ.Fin 1; XQ.Fin 1] [XQ.Fin 0; XQ.Fin 0; XQ.Fin 0]
                  [XQ.Fin 0; XQ.Fin 0; XQ.Fin 1] [XQ.Fin 1; XQ.Fin 1; XQ.Fin 1])
               (small_agent 2 1, 0%nat, []) 0
      = Ok (self', g', [] ++ new) /\
    concat (map step_idx new) ≡ₚ [0; 1; 2] /\
    Z.of_nat (length new) = 2.
Proof.
  destruct (epoch_minibatches_cover
              (tensors_of (small_agent 2 1) [XQ.Fin 1; XQ.Fin 1; XQ.Fin 1]
                 [XQ.Fin 1; XQ.Fin 1; XQ.Fin 1] [XQ.Fin 0; XQ.Fin 0; XQ.Fin 0]
                 [XQ.Fin 0; XQ.Fin 0; XQ.Fin 1] [XQ.Fin 1; XQ.Fin 1; XQ.Fin 1])
              3 (small_agent 2 1) 0%nat [] 0)
    as (self' & g' & new & Hrun & Hperm & _ & _ & Hcount & _).
  - exact small_shuffle_permutes.
  - apply tensors_of_aligned; reflexivity.
  - lia.
  - simpl. lia.
  - exists self', g', new. split; [exact Hrun|]. split; [exact Hperm|exact Hcount].
Defined.

(** ** Construction *)



(** ** Action selection *)

(** C5 (the code departs from it).  With [deterministic = True],
    [take_action] returns [Categorical(probs).mean], which is [nan] whatever
    the observation and the probabilities: not the index of the most
    probable action. *)
Theorem take_action_deterministic_is_nan {E : Type} `{Num E} `{Torch E} `{Networks E}
    (self : PPO) (g : Rng) (observation : E) :
  take_action self g observation true = (th_nan, g).
Proof. reflexivity. Qed.

(** The same at an agent whose policy gives probability 1 to action 0. *)
Lemma take_action_deterministic_small :
  policy_forward (policy_net (small_agent 1 1)) (XQ.Fin 1) = [XQ.Fin 1; XQ.Fin 0] /\
  take_action (small_agent 1 1) 0%nat (XQ.Fin 1) true = (XQ.NaN, 0%nat) /\
  XQ.NaN <> XQ.Fin 0.
Proof. split_and!; [reflexivity..|discriminate]. Qed.

(** ** The snapshot of the log-probabilities *)

(** C6.  When [train] returns, with [snapshot] the log-probabilities of the
    stored actions under the policy network [train] was entered with: the
    passes follow one another from that agent, and in every pass the
    [old_log_prob] rows are the rows of [snapshot] at the indices of the
    minibatch, whatever the policy network has become, the ratio is
    [exp(log_prob - old_log_prob)] with [log_prob] from the policy network of
    the pass, and the loss handed to the policy optimiser has these rows as
    constants. *)
Theorem train_old_log_prob_frozen {E : Type} `{Num E} `{Torch E} `{Networks E}
    (self self' : PPO) (g g' : Rng) (bd bd' : dict E) (steps : list Step) :
  train self g bd = Ok (self', g', bd', steps) ->
  exists obs act : list E,
    bd !! "observations" = Some obs /\ bd !! "actions" = Some act /\
    chained self steps /\ self' = after self steps /\
    let snapshot := log_prob (policy_net self) (map th_float obs) (map th_long act) in
    forall st : Step, st ∈ steps ->
      let b := step_batch st in
      take_idx snapshot (step_idx st) = Ok (sgd_old_log_prob b) /\
      step_ratio st
        = zip_with (fun lp old => th_exp (sub lp old))
            (log_prob (policy_net (step_self st))
                      (sgd_obs_tensor b) (sgd_action_tensor b))
            (sgd_old_log_prob b) /\
      policy_net (update (step_self st) b)
        = (policy_step (policy_loss (step_self st) b)
                       (policy_net (step_self st))
                       (policy_net_optimizer (step_self st))).1.
Proof.
  intros Hrun.
  apply train_inv in Hrun as (t & Hprep & Hch & -> & Hpass).
  apply prepare_inv in Hprep
    as (obs & nobs & act & dn & rw & Ho & _ & Ha & _ & _ & -> & _).
  exists obs, act. split_and!; try done.
  intros snapshot st Hst b.
  rewrite Forall_forall in Hpass.
  destruct (Hpass st Hst) as ((_ & _ & _ & _ & _ & _ & Holp) & Hst_eq & _).
  split_and!.
  - exact Holp.
  - by rewrite Hst_eq at 1.
  - reflexivity.
Qed.

Lemma train_old_log_prob_frozen_witness :
  match train (small_agent 1 2) 0%nat two_steps with
  | Ok (self', _, _, steps) =>
      chained (small_agent 1 2) steps /\ self' = after (small_agent 1 2) steps /\
      (forall st : Step, st ∈ steps ->
         take_idx [XQ.Fin 0; XQ.Fin 0] (step_idx st)
           = Ok (sgd_old_log_prob (step_batch st))) /\
      (policy_net <$> (step_self <$> steps !! 3%nat)) = Some [XQ.Fin 0; XQ.Fin 1] /\
      (step_ratio <$> steps !! 3%nat) = Some [XQ.Fin 0]
  | Raise _ => False
  end.
Proof.
  destruct (train (small_agent 1 2) 0%nat two_steps)
    as [[[[self' g'] bd'] steps]|e] eqn:Hrun.
  - destruct (train_old_log_prob_frozen _ _ _ _ _ _ _ Hrun)
      as (obs & act & Ho & Ha & Hch & Hafter & Hsteps).
    vm_compute in Ho. vm_compute in Ha.
    injection Ho as <-. injection Ha as <-.
    split; [exact Hch|]. split; [exact Hafter|].
    split; [intros st Hst; exact (proj1 (Hsteps st Hst))|].
    vm_compute in Hrun. injection Hrun as _ _ _ <-. split; reflexivity.
  - vm_compute in Hrun. discriminate Hrun.
Defined.

(** ** The value side of a pass *)

(** C7.  When [train] returns: the passes follow one another from the agent
    [train] was entered with, and in every pass [value], [next_value] and
    [td_target] are computed from the value network the pass starts from,
    the one the passes before it left: [next_value] is the value of the next
    observation times [1 - done], so it is 0 at a terminal step whenever that
    product with 0 is 0, [td_target] is [reward + gamma * next_value], and
    the loss handed to the value optimiser computes both [value] and
    [td_target] from the network it differentiates. *)
Theorem train_recomputes_td_target {E : Type} `{Num E} `{Torch E} `{Networks E}
    (self self' : PPO) (g g' : Rng) (bd bd' : dict E) (steps : list Step) :
  train self g bd = Ok (self', g', bd', steps) ->
  exists nobs dn rw : list E,
    bd !! "next_observations" = Some nobs /\ bd !! "dones" = Some dn /\
    bd !! "rewards" = Some rw /\
    chained self steps /\ self' = after self steps /\
    forall st : Step, st ∈ steps ->
      let b := step_batch st in
      let net := value_net (step_self st) in
      take_idx (map th_float nobs) (step_idx st) = Ok (sgd_next_obs_tensor b) /\
      take_idx (map th_long dn) (step_idx st) = Ok (sgd_done_tensor b) /\
      take_idx (map th_float rw) (step_idx st) = Ok (sgd_reward_tensor b) /\
      step_value_out st = map (value_forward net) (sgd_obs_tensor b) /\
      step_next_value st
        = zip_with (fun o d => mul (value_forward net o) (sub one d))
                   (sgd_next_obs_tensor b) (sgd_done_tensor b) /\
      step_td_target st
        = zip_with (fun r nv => add r (mul (gamma self) nv))
                   (sgd_reward_tensor b) (step_next_value st) /\
      step_value_loss st = mse_loss (step_value_out st) (step_td_target st) /\
      value_net (update (step_self st) b)
        = (value_step
             (fun net' =>
                mse_loss
                  (map (value_forward net') (sgd_obs_tensor b))
                  (zip_with (fun r nv => add r (mul (gamma (step_self st)) nv))
                     (sgd_reward_tensor b)
                     (zip_with (fun o d => mul (value_forward net' o) (sub one d))
                        (sgd_next_obs_tensor b) (sgd_done_tensor b))))
             net (value_net_optimizer (step_self st))).1 /\
      (forall (j : nat) (o d : E),
         sgd_next_obs_tensor b !! j = Some o -> sgd_done_tensor b !! j = Some d ->
         d = one -> mul (value_forward net o) (sub one one) = zero ->
         step_next_value st !! j = Some zero).
Proof.
  intros Hrun.
  apply train_inv in Hrun as (t & Hprep & Hch & -> & Hpass).
  apply prepare_inv in Hprep
    as (obs & nobs & act & dn & rw & _ & Hno & _ & Hd & Hr & -> & _).
  exists nobs, dn, rw. split_and!; try done.
  intros st Hst b net.
  rewrite Forall_forall in Hpass.
  destruct (Hpass st Hst)
    as ((_ & Hsno & _ & Hsd & Hsr & _ & _) & Hst_eq & (_ & Hgamma & _)).
  assert (Hnv : step_next_value st
                = zip_with (fun o d => mul (value_forward net o) (sub one d))
                           (sgd_next_obs_tensor b) (sgd_done_tensor b))
    by (by rewrite Hst_eq at 1).
  split_and!; try done.
  - by rewrite Hst_eq at 1.
  - rewrite Hnv, <- Hgamma. by rewrite Hst_eq at 1.
  - by rewrite Hst_eq at 1 2 3.
  - intros j o d Ho Hdj -> Hzero.
    rewrite Hnv, lookup_zip_with, Ho. simpl. rewrite Hdj. simpl. by rewrite Hzero.
Qed.

Lemma train_recomputes_td_target_witness :
  match train (small_agent 1 2) 0%nat two_steps with
  | Ok (self', _, _, steps) =>
      chained (small_agent 1 2) steps /\
      (forall st : Step, st ∈ steps ->
         step_value_out st
           = map (value_forward (value_net (step_self st)))
                 (sgd_obs_tensor (step_batch st))) /\
      (step_td_target <$> steps !! 1%nat) = Some [XQ.Fin (3 # 2)] /\
      (step_td_target <$> steps !! 3%nat) = Some [XQ.Fin (367 # 256)]
  | Raise _ => False
  end.
Proof.
  destruct (train (small_agent 1 2) 0%nat two_steps)
    as [[[[self' g'] bd'] steps]|e] eqn:Hrun.
  - destruct (train_recomputes_td_target _ _ _ _ _ _ _ Hrun)
      as (nobs & dn & rw & _ & _ & _ & Hch & _ & Hsteps).
    split; [exact Hch|].
    split; [intros st Hst; exact (proj1 (proj2 (proj2 (proj2 (Hsteps st Hst)))))|].
    vm_compute in Hrun. injection Hrun as _ _ _ <-. split; reflexivity.
  - vm_compute in Hrun. discriminate Hrun.
Defined.

(** ** Non-finite ratios *)

(** C8 (as amended).  [train] makes no test on the ratio.  On a buffer with
    its five keys at one length of at least 1, whose stored actions are
    indices of the rows of the policy, and a batch size other than 0, when
    the shuffle permutes, it returns without raising whatever the values of
    the logarithms and of the ratio are, and in every pass the policy loss is
    computed from the ratio as it is. *)
Theorem train_ratio_unchecked {E : Type} `{Num E} `{Torch E} `{Networks E}
    (self : PPO) (g : Rng) (bd : dict E) (obs nobs act dn rw : list E) (n : nat) :
  shuffle_permutes ->
  bd !! "observations" = Some obs -> bd !! "next_observations" = Some nobs ->
  bd !! "actions" = Some act -> bd !! "dones" = Some dn ->
  bd !! "rewards" = Some rw ->
  length obs = n -> length nobs = n -> length act = n ->
  length dn = n -> length rw = n ->
  (0 < n)%nat ->
  (forall (t : nat) (o a : E), obs !! t = Some o -> act !! t = Some a ->
     th_gather_ok (policy_forward (policy_net self) (th_float o)) (th_long a)
     = true) ->
  batch_size self <> 0 ->
  exists (self' : PPO) (g' : Rng) (bd' : dict E) (steps : list Step),
    train self g bd = Ok (self', g', bd', steps) /\
    forall st : Step, st ∈ steps ->
      let adv := sgd_advantage_tensor (step_batch st) in
      step_policy_loss st
        = neg (th_mean
                 (zip_with th_min
                    (zip_with mul (step_ratio st) adv)
                    (zip_with mul
                       (map (fun r => th_clamp r (sub one (epsilon (step_self st)))
                                               (add one (epsilon (step_self st))))
                            (step_ratio st))
                       adv))).
Proof.
  intros Hsh Ho Hno Ha Hd Hr Lo Lno La Ld Lr Hn Hidx Hb.
  assert (Hg : gather_check (policy_net self) (map th_float obs) (map th_long act)
               = Ok tt).
  { apply gather_check_ok.
    - destruct obs; [simpl in Lo; lia|done].
    - intros t o a Hto Hta. rewrite list_lookup_fmap in Hto, Hta.
      destruct (obs !! t) as [o0|] eqn:Ho0; [|done].
      destruct (act !! t) as [a0|] eqn:Ha0; [|done].
      injection Hto as <-. injection Hta as <-. by apply (Hidx t). }
  destruct (train_ok self g bd obs nobs act dn rw n) as (self' & g' & steps & Hrun);
    try done.
  exists self', g', (derived_of self obs nobs dn rw bd), steps.
  split; [done|]. intros st Hst adv.
  apply train_inv in Hrun as (t & _ & _ & _ & Hpass).
  rewrite Forall_forall in Hpass.
  destruct (Hpass st Hst) as (_ & Hst_eq & _).
  by rewrite Hst_eq at 1 2 3.
Qed.

Lemma train_ratio_unchecked_witness :
  exists (self' : PPO) (g' : Rng) (bd' : dict XQ.t) (steps : list Step),
    train (small_agent 1 2) 0%nat two_steps = Ok (self', g', bd', steps).
Proof.
  destruct (train_ratio_unchecked (small_agent 1 2) 0%nat two_steps
              [XQ.Fin 1; XQ.Fin 1] [XQ.Fin 1; XQ.Fin 1] [XQ.Fin 0; XQ.Fin 0]
              [XQ.Fin 0; XQ.Fin 1] [XQ.Fin 1; XQ.Fin 1] 2)
    as (self' & g' & bd' & steps & Hrun & _);
    [exact small_shuffle_permutes|reflexivity..|lia| |simpl; lia|].
  - intros [|[|t]] o a Ho Ha; [| |discriminate Ho];
      injection Ho as <-; injection Ha as <-; reflexivity.
  - by exists self', g', bd', steps.
Defined.

(** C8, as stated, fails: the stored action has probability 0 under the
    policy, so both logarithms are [-inf], the ratio is [exp(nan) = nan], and
    [train] returns normally after handing the optimiser the policy loss
    [nan]. *)
Lemma train_nan_ratio_not_raised :
  match train (small_agent 1 1) 0%nat zero_probability_step with
  | Ok (self', _, _, [st]) =>
      sgd_old_log_prob (step_batch st) = [XQ.NInf] /\
      step_ratio st = [XQ.NaN] /\
      XQ.is_finite XQ.NaN = false /\
      step_policy_loss st = XQ.NaN /\
      self' = update (small_agent 1 1) (step_batch st)
  | _ => False
  end.
Proof. vm_compute. by split_and!. Qed.

(** ** The empty buffer *)



